(** * Srchive: ingestion, retention and query engine

    A shallow embedding of [ingest_data.py] and [app.py].  The two external
    stores are modelled by their contents: the MongoDB collection [papers] is
    a list of documents in natural (insertion) order, the Pinecone index
    [arxiv-search] is a finite map from ids to vectors.  Everything the
    environment decides (HTTP responses, arXiv results, the embedding model,
    the wall clock) is an explicit argument of the function that reads it. *)

From Stdlib Require Import ZArith QArith Lia Ascii String.
From stdpp Require Import base list gmap sets strings sorting pretty.

Set Warnings "-clear-no-such-hyp,-abstract-large-number".

Local Open Scope string_scope.
Local Open Scope nat_scope.
Local Open Scope list_scope.
Local Open Scope stdpp_scope.

(** ** Constants of [ingest_data.py] *)

Definition MAX_ITEMS : Z := 30000.
Definition RECENT_ITEMS : nat := 27000.
Definition CLASSIC_ITEMS : nat := 3000.
Definition BATCH_SIZE : nat := 200.

(** ** A stable sort

    Python's [list.sort] is stable, also with [reverse=True]; the store's
    [.sort(field, 1)] is modelled by the same stable sort, so ties keep
    natural order. [leb a b] says that [a] may stay in front of [b]. *)

Section StableSort.
Context {A : Type} (leb : A → A → bool).

Fixpoint insert_sorted (x : A) (l : list A) : list A :=
  match l with
  | [] => [x]
  | y :: l' => if leb x y then x :: y :: l' else y :: insert_sorted x l'
  end.

Definition sort_by (l : list A) : list A := foldr insert_sorted [] l.
End StableSort.

(** ** The two stores *)

Module Store.

(** A document of the collection [papers].  Every field but [_id] may be
    missing from a stored document, which is what [meta.get(k, default)]
    and the filter [$ne] account for. *)
Record Doc := {
  _id : string;
  title : option string;
  summary : option string;
  authors : option string;
  pdf_url : option string;
  ingested_at : Z;
  type : option string
}.

Definition Vector := list Q.

Record Stores := {
  collection : list Doc;
  index : gmap string Vector
}.

Definition ids (c : list Doc) : list string := _id <$> c.

(** [collection.count_documents({})] *)
Definition count_documents (c : list Doc) : Z := Z.of_nat (length c).

(** [collection.find({"type": {"$ne": "classic"}})]: also matches a
    document without a [type] field. *)
Definition find_type_ne_classic (c : list Doc) : list Doc :=
  filter (λ d, type d ≠ Some "classic") c.

(** [.sort("ingested_at", 1)] *)
Definition sort_ingested_at (c : list Doc) : list Doc :=
  sort_by (λ a b, (ingested_at a <=? ingested_at b)%Z) c.

(** [.limit(n)]: a limit of 0 means no limit. *)
Definition limit (n : Z) (c : list Doc) : list Doc :=
  if (n =? 0)%Z then c else take (Z.to_nat n) c.

(** [collection.find({"_id": {"$in": ids}})], in natural order. *)
Definition find_id_in (sel : list string) (c : list Doc) : list Doc :=
  filter (λ d, _id d ∈ sel) c.

(** [collection.delete_many({"_id": {"$in": ids}})] *)
Definition delete_many (sel : list string) (c : list Doc) : list Doc :=
  filter (λ d, _id d ∉ sel) c.

(** [index.delete(ids=batch)] *)
Definition index_delete (batch : list string) (idx : gmap string Vector)
  : gmap string Vector :=
  foldl (λ m i, delete i m) idx batch.

(** [index.upsert(vectors=batch)] *)
Definition index_upsert (batch : list (string * Vector))
    (idx : gmap string Vector) : gmap string Vector :=
  foldl (λ m iv, <[iv.1 := iv.2]> m) idx batch.

(** [operations.UpdateOne({"_id": id}, {"$set": {...}}, upsert=True)] as
    both ingestion modes build it. *)
Record UpdateOne := {
  filter_id : string;
  set_title : string;
  set_summary : string;
  set_authors : string;
  set_pdf_url : string;
  set_ingested_at : Z;
  set_type : string
}.

(** [$set] on a matched document: the six fields are overwritten. *)
Definition apply_set (op : UpdateOne) (d : Doc) : Doc :=
  {| _id := _id d;
     title := Some (set_title op);
     summary := Some (set_summary op);
     authors := Some (set_authors op);
     pdf_url := Some (set_pdf_url op);
     ingested_at := set_ingested_at op;
     type := Some (set_type op) |}.

(** The document an upsert inserts when nothing matches the filter. *)
Definition inserted_doc (op : UpdateOne) : Doc :=
  {| _id := filter_id op;
     title := Some (set_title op);
     summary := Some (set_summary op);
     authors := Some (set_authors op);
     pdf_url := Some (set_pdf_url op);
     ingested_at := set_ingested_at op;
     type := Some (set_type op) |}.

(** One [UpdateOne] with [upsert=True]: the first document matching the
    filter is updated, and a new one is added when none matches. *)
Fixpoint update_one (op : UpdateOne) (c : list Doc) : list Doc :=
  match c with
  | [] => [inserted_doc op]
  | d :: c' =>
      if decide (_id d = filter_id op) then apply_set op d :: c'
      else d :: update_one op c'
  end.

(** [collection.bulk_write(ops)]: ordered, one operation after the other. *)
Definition bulk_write (ops : list UpdateOne) (c : list Doc) : list Doc :=
  foldl (λ c' op, update_one op c') c ops.

End Store.

(** ** Retention controller: [cleanup_old_items] *)

Module Retention.
Import Store.

(** [range(0, stop, step)] *)
Definition range0 (stop step : nat) : list nat :=
  (λ k, k * step) <$> seq 0 ((stop + step - 1) / step).

(** The slices [delete_ids[i : i + size]] for [i] in [range(0, len, size)]. *)
Definition batches (size : nat) (l : list string) : list (list string) :=
  (λ i, take size (drop i l)) <$> range0 (length l) size.

Definition docs_to_delete (c : list Doc) (max_items : Z) : list Doc :=
  limit (count_documents c - max_items)
        (sort_ingested_at (find_type_ne_classic c)).

Definition cleanup_old_items (s : Stores) (max_items : Z) : Stores :=
  let current_count := count_documents (collection s) in
  if (current_count >? max_items)%Z then
    let delete_ids := ids (docs_to_delete (collection s) max_items) in
    match delete_ids with
    | _ :: _ =>
        let pinecone_batch_size := 1000 in
        let index' :=
          foldl (λ idx batch, index_delete batch idx) (index s)
                (batches pinecone_batch_size delete_ids) in
        {| collection := delete_many delete_ids (collection s);
           index := index' |}
    | [] => s
    end
  else s.

End Retention.

(** ** What the environment decides *)

Module Env.
Import Store.

(** An entry of [arxiv.Client().results(...)]. *)
Record Paper := {
  entry_id : string;
  paper_title : string;
  paper_summary : string;
  paper_authors : list string;
  paper_pdf_url : string
}.

(** What one [requests.get] to the Semantic Scholar search gives. An item of
    [data["data"]] is kept as the value of
    [item.get("externalIds", {}).get("ArXiv")]. *)
Inductive Response :=
| TooManyRequests
| Failed
| Json (data : option (list (option string))).

Record World := {
  (** url of a curated list ↦ [arxiv_pattern.findall(response.text)], or
      [None] when the request raises [RequestException] *)
  github_found_ids : string → option (list string);
  (** offset and value of [retries] ↦ answer of the search API *)
  scholar_api : nat → nat → Response;
  (** the order in which [list(s)] enumerates a set *)
  list_of_set : gset string → list string;
  (** [next(arxiv.Client().results(arxiv.Search(id_list=[id])))], or [None]
      when it raises *)
  arxiv_lookup : string → option Paper;
  (** [weeks_to_go_back] ↦ the papers [client.results(search)] yields *)
  arxiv_week : nat → list Paper;
  (** [model.encode(text).tolist()], or [None] when it raises *)
  encode : string → option Vector;
  (** the value of the k-th [datetime.now(timezone.utc)] of a staged write *)
  now : nat → Z;
  (** [index.query(vector=v, top_k=k)]: the matches as (id, score), or
      [None] when it raises *)
  index_query : Vector → nat → option (list (string * Q))
}.

(** [list(s)] enumerates each element of the set once. *)
Definition set_order_ok (w : World) : Prop :=
  ∀ X : gset string, list_of_set w X ≡ₚ elements X.

End Env.

(** ** String helpers *)

Module Str.

(** [s.replace("\n", " ")] *)
Fixpoint replace_newlines (s : string) : string :=
  match s with
  | EmptyString => EmptyString
  | String c s' =>
      String (if Ascii.eqb c "010"%char then " "%char else c)
             (replace_newlines s')
  end.

Fixpoint after_last_slash (s : string) : option string :=
  match s with
  | EmptyString => None
  | String c s' =>
      match after_last_slash s' with
      | Some r => Some r
      | None => if Ascii.eqb c "/"%char then Some s' else None
      end
  end.

(** [s.split("/")[-1]] *)
Definition last_segment (s : string) : string :=
  default s (after_last_slash s).

Definition is_space (c : ascii) : bool :=
  let n := nat_of_ascii c in
  Nat.eqb n 32 || (Nat.leb 9 n && Nat.leb n 13)
  || (Nat.leb 28 n && Nat.leb n 31).

Fixpoint lstrip (s : string) : string :=
  match s with
  | EmptyString => EmptyString
  | String c s' => if is_space c then lstrip s' else s
  end.

Fixpoint rstrip (s : string) : string :=
  match s with
  | EmptyString => EmptyString
  | String c s' =>
      match rstrip s' with
      | EmptyString => if is_space c then EmptyString else String c EmptyString
      | r => String c r
      end
  end.

(** [s.strip()] *)
Definition strip (s : string) : string := rstrip (lstrip s).

End Str.

(** ** Candidate discovery *)

Module Discovery.
Import Store Env.

Definition awesome_lists : list string := [
  "https://raw.githubusercontent.com/terryum/awesome-deep-learning-papers/master/README.md";
  "https://raw.githubusercontent.com/ChristosChristofidis/awesome-deep-learning/master/README.md";
  "https://raw.githubusercontent.com/ashishpatel26/500-AI-Machine-learning-Deep-learning-Computer-vision-NLP-Projects-with-code/master/README.md";
  "https://raw.githubusercontent.com/keon/awesome-nlp/master/README.md";
  "https://raw.githubusercontent.com/jtoy/awesome-tensorflow/master/README.md";
  "https://raw.githubusercontent.com/kjw0612/awesome-deep-vision/master/README.md"
].

(** The set [classic_ids] after the loop over [awesome_lists]: a list that
    cannot be fetched is skipped. *)
Definition github_classic_ids (w : World) : gset string :=
  foldl (λ classic_ids url,
           match github_found_ids w url with
           | Some found_ids => classic_ids ∪ list_to_set found_ids
           | None => classic_ids
           end) ∅ awesome_lists.

Definition fetch_classic_ids_from_github (w : World) (n : nat) : list string :=
  take n (list_of_set w (github_classic_ids w)).

(** What [fetch_classic_ids_from_semantic_scholar] does to the outside, in
    order. *)
Inductive Event :=
| Get (offset : nat)
| Sleep (seconds : nat).

#[global] Instance Event_eq_dec : EqDecision Event.
Proof. solve_decision. Defined.

Definition page_limit : nat := 100.
Definition max_retries : nat := 3.

(** The loop [while retries < max_retries]; [left] is
    [max_retries - retries]. The result is [data], where [None] stands for
    a [data] without a usable key "data" (as the initial [data = {}] is). *)
Fixpoint retry_loop (w : World) (offset left retries : nat)
  : option (list (option string)) * list Event :=
  match left with
  | 0 => (None, [])
  | S left' =>
      match scholar_api w offset retries with
      | TooManyRequests =>
          let '(data, tr) := retry_loop w offset left' (S retries) in
          (data, Get offset :: Sleep 60 :: tr)
      | Failed =>
          let '(data, tr) := retry_loop w offset left' (S retries) in
          (data, Get offset :: Sleep 5 :: tr)
      | Json data => (data, [Get offset])
      end
  end.

(** The loop [for item in data["data"]]. *)
Fixpoint add_items (n : nat) (items : list (option string))
    (classic_ids : gset string) : gset string :=
  match items with
  | [] => classic_ids
  | item :: rest =>
      match item with
      | Some arxiv_id =>
          if bool_decide (arxiv_id ≠ "" ∧ arxiv_id ∉ classic_ids) then
            let classic_ids' := classic_ids ∪ {[arxiv_id]} in
            if bool_decide (n ≤ size classic_ids') then classic_ids'
            else add_items n rest classic_ids'
          else add_items n rest classic_ids
      | None => add_items n rest classic_ids
      end
  end.

(** The loop [while len(classic_ids) < n]; [pages] bounds the pages left
    before [offset] passes 9900, written [99 * 100]. *)
Fixpoint scholar_loop (w : World) (n pages offset : nat)
    (classic_ids : gset string) : gset string * list Event :=
  match pages with
  | 0 => (classic_ids, [])
  | S pages' =>
      if bool_decide (size classic_ids < n) then
        let '(data, tr) := retry_loop w offset max_retries 0 in
        match data with
        | None | Some [] => (classic_ids, tr)
        | Some items =>
            let classic_ids' := add_items n items classic_ids in
            if bool_decide (n ≤ size classic_ids') then (classic_ids', tr)
            else
              let offset' := offset + page_limit in
              if bool_decide (99 * 100 < offset') then (classic_ids', tr)
              else
                let '(r, tr') :=
                  scholar_loop w n pages' offset' classic_ids' in
                (r, tr ++ Sleep 2 :: tr')
        end
      else (classic_ids, [])
  end.

(** Offsets 0, 100, ..., 9900: at most 100 pages. *)
Definition max_pages : nat := 100.

Definition scholar_run (w : World) (n : nat) : gset string * list Event :=
  scholar_loop w n max_pages 0 ∅.

Definition fetch_classic_ids_from_semantic_scholar (w : World) (n : nat)
  : list string :=
  list_of_set w (scholar_run w n).1.

(** [set(github_ids) | set(scholar_ids)] in [ingest_classic_papers]. *)
Definition combined_ids (w : World) (limit : nat) : gset string :=
  let github_ids := fetch_classic_ids_from_github w limit in
  let scholar_ids := fetch_classic_ids_from_semantic_scholar w (limit / 2) in
  list_to_set github_ids ∪ list_to_set scholar_ids.

End Discovery.

(** ** Ingestion pipeline *)

Module Ingest.
Import Store Env Str Discovery.

(** A write the pipeline sends to a store. *)
Inductive Write :=
| Upsert (vectors : list (string * Vector))
| BulkWrite (ops : list UpdateOne).

(** The variables of a mode's run, the stores they write to, and the
    writes sent so far. [ingested] is [classic_ingested] in classic mode and
    [papers_ingested_count] in recent mode; [ticks] counts the clock reads. *)
Record State := {
  stores : Stores;
  processed_ids : gset string;
  vectors_batch : list (string * Vector);
  mongo_batch : list UpdateOne;
  ingested : nat;
  ticks : nat;
  log : list Write
}.

(** [index.upsert(vectors=vectors_batch); collection.bulk_write(mongo_batch)] *)
Definition write_batches (st : State) : State :=
  {| stores :=
       {| collection := bulk_write (mongo_batch st) (collection (stores st));
          index := index_upsert (vectors_batch st) (index (stores st)) |};
     processed_ids := processed_ids st;
     vectors_batch := vectors_batch st;
     mongo_batch := mongo_batch st;
     ingested := ingested st;
     ticks := ticks st;
     log := log st ++ [Upsert (vectors_batch st); BulkWrite (mongo_batch st)] |}.

(** [vectors_batch, mongo_batch = [], []] *)
Definition clear_batches (st : State) : State :=
  {| stores := stores st;
     processed_ids := processed_ids st;
     vectors_batch := [];
     mongo_batch := [];
     ingested := ingested st;
     ticks := ticks st;
     log := log st |}.

(** The staged write both modes perform for one paper (lines 170-191 and
    256-279): append the vector and the operation, count the paper, record
    its id, and flush when the batch has reached [BATCH_SIZE]. *)
Definition stage (w : World) (ty doc_id ttl cleaned_summary auths url : string)
    (embedding : Vector) (st : State) : State :=
  let mongo_op :=
    {| filter_id := doc_id;
       set_title := ttl;
       set_summary := cleaned_summary;
       set_authors := auths;
       set_pdf_url := url;
       set_ingested_at := now w (ticks st);
       set_type := ty |} in
  let st' :=
    {| stores := stores st;
       processed_ids := processed_ids st ∪ {[doc_id]};
       vectors_batch := vectors_batch st ++ [(doc_id, embedding)];
       mongo_batch := mongo_batch st ++ [mongo_op];
       ingested := S (ingested st);
       ticks := S (ticks st);
       log := log st |} in
  if bool_decide (BATCH_SIZE ≤ length (vectors_batch st'))
  then clear_batches (write_batches st')
  else st'.

(** The final flush of a mode: [if vectors_batch: upsert; bulk_write]. *)
Definition final_flush (st : State) : State :=
  match vectors_batch st with
  | [] => st
  | _ :: _ => write_batches st
  end.

(** The dictionary [fetch_arxiv_metadata] returns. *)
Record Meta := {
  meta_id : string;
  meta_title : string;
  meta_summary : string;
  meta_authors : string;
  meta_pdf_url : string
}.

Definition fetch_arxiv_metadata (w : World) (arxiv_id : string) : option Meta :=
  match arxiv_lookup w arxiv_id with
  | Some paper =>
      Some {| meta_id := last_segment (entry_id paper);
              meta_title := paper_title paper;
              meta_summary := paper_summary paper;
              meta_authors := String.concat ", " (paper_authors paper);
              meta_pdf_url := paper_pdf_url paper |}
  | None => None
  end.

Definition text_to_embed (ttl cleaned_summary : string) : string :=
  "Title: " +:+ ttl +:+ ". Abstract: " +:+ cleaned_summary.

(** One iteration of the loop over [new_classic_ids]. *)
Definition classic_item (w : World) (st : State) (arxiv_id : string) : State :=
  match fetch_arxiv_metadata w arxiv_id with
  | None => st
  | Some meta =>
      let cleaned_summary := replace_newlines (meta_summary meta) in
      match encode w (text_to_embed (meta_title meta) cleaned_summary) with
      | None => st
      | Some embedding =>
          stage w "classic" (meta_id meta) (meta_title meta) cleaned_summary
                (meta_authors meta) (meta_pdf_url meta) embedding st
      end
  end.

(** The ids [ingest_classic_papers] goes through. *)
Definition new_classic_ids (w : World) (processed : gset string)
    (limit : nat) : list string :=
  filter (λ cid, cid ∉ processed) (list_of_set w (combined_ids w limit)).

(** The variables a mode starts with: empty batches and a counter at 0. *)
Definition mode_start (st : State) : State :=
  {| stores := stores st;
     processed_ids := processed_ids st;
     vectors_batch := [];
     mongo_batch := [];
     ingested := 0;
     ticks := ticks st;
     log := log st |}.

(** [ingest_classic_papers(collection, index, processed_ids, limit)]; the
    batches and the counter are local to the call. *)
Definition ingest_classic_papers (w : World) (st : State) (limit : nat)
  : State :=
  match new_classic_ids w (processed_ids st) limit with
  | [] => st
  | new_ids => final_flush (foldl (classic_item w) (mode_start st) new_ids)
  end.

(** The loop [for paper in results] of one week. An exception of the
    embedding model leaves the loop. *)
Fixpoint recent_week (w : World) (results : list Paper) (st : State) : State :=
  match results with
  | [] => st
  | paper :: rest =>
      let doc_id := last_segment (entry_id paper) in
      if bool_decide (doc_id ∈ processed_ids st) then recent_week w rest st
      else
        let cleaned_summary := replace_newlines (paper_summary paper) in
        match encode w (text_to_embed (paper_title paper) cleaned_summary) with
        | None => st
        | Some embedding =>
            let st' :=
              stage w "recent" doc_id (paper_title paper) cleaned_summary
                    (String.concat ", " (paper_authors paper))
                    (paper_pdf_url paper) embedding st in
            if bool_decide (RECENT_ITEMS ≤ ingested st') then st'
            else recent_week w rest st'
        end
  end.

(** The loop [while papers_ingested_count < RECENT_ITEMS]; [windows] is the
    number of weekly windows left before [weeks_to_go_back] passes 156. *)
Fixpoint recent_loop (w : World) (windows weeks_to_go_back : nat)
    (st : State) : State :=
  match windows with
  | 0 => st
  | S windows' =>
      if bool_decide (ingested st < RECENT_ITEMS) then
        recent_loop w windows' (S weeks_to_go_back)
                    (recent_week w (arxiv_week w weeks_to_go_back) st)
      else st
  end.

Definition max_windows : nat := 157.

(** Lines 222-294: the recent mode with its final flush. *)
Definition ingest_recent_papers (w : World) (st : State) : State :=
  final_flush (recent_loop w max_windows 0 (mode_start st)).

(** Lines 216-298: the whole job. *)
Definition run (w : World) (s : Stores) : State :=
  let s1 := Retention.cleanup_old_items s MAX_ITEMS in
  let st1 :=
    {| stores := s1;
       processed_ids := list_to_set (ids (collection s1));
       vectors_batch := [];
       mongo_batch := [];
       ingested := 0;
       ticks := 0;
       log := [] |} in
  let st2 := ingest_classic_papers w st1 CLASSIC_ITEMS in
  let st3 := ingest_recent_papers w st2 in
  {| stores := Retention.cleanup_old_items (stores st3) MAX_ITEMS;
     processed_ids := processed_ids st3;
     vectors_batch := vectors_batch st3;
     mongo_batch := mongo_batch st3;
     ingested := ingested st3;
     ticks := ticks st3;
     log := log st3 |}.

End Ingest.

(** ** Query engine: [perform_search] *)

Module Query.
Import Store Env Str.

(** An entry of [all_results]. A similarity score is a finite float, kept
    as the rational it denotes; the engine only compares scores. *)
Record Result := {
  id : string;
  score : Q;
  res_title : string;
  res_summary : string;
  res_authors : string;
  res_pdf_url : string;
  res_type : string
}.

(** The accumulator of the loop over the queries. *)
Record Acc := {
  all_results : list Result;
  seen_ids : gset string
}.

Definition top_k : nat := 15.

(** [{res["id"]: res["score"] for res in matches}]: a later match
    overwrites an earlier one with the same id. *)
Definition id_to_score (matches : list (string * Q)) : gmap string Q :=
  foldl (λ m res, <[res.1 := res.2]> m) ∅ matches.

Definition result_of (scores : gmap string Q) (meta : Doc) : Result :=
  {| id := _id meta;
     score := default 0%Q (scores !! _id meta);
     res_title := default "No Title" (title meta);
     res_summary := default "No summary available." (summary meta);
     res_authors := default "No authors listed" (authors meta);
     res_pdf_url := default "#" (pdf_url meta);
     res_type := default "recent" (type meta) |}.

(** The loop [for meta in papers_metadata]. *)
Definition add_meta (scores : gmap string Q) (acc : Acc) (meta : Doc) : Acc :=
  let paper_id := _id meta in
  if bool_decide (paper_id ∉ seen_ids acc) then
    {| all_results := all_results acc ++ [result_of scores meta];
       seen_ids := seen_ids acc ∪ {[paper_id]} |}
  else acc.

(** The matches of one query, or [None] when the [try] block raises. *)
Definition query_matches (w : World) (query : string)
  : option (list (string * Q)) :=
  match encode w (strip query) with
  | Some query_vector => index_query w query_vector top_k
  | None => None
  end.

(** One iteration of the loop [for query in queries]. *)
Definition search_one (w : World) (c : list Doc) (acc : Acc)
    (query : string) : Acc :=
  match query_matches w query with
  | None => acc
  | Some matches =>
      let result_ids := matches.*1 in
      match result_ids with
      | [] => acc
      | _ :: _ =>
          let papers_metadata := find_id_in result_ids c in
          foldl (add_meta (id_to_score matches)) acc papers_metadata
      end
  end.

(** [all_results] after the loop over the queries. *)
Definition merged (w : World) (c : list Doc) (queries : list string)
  : list Result :=
  all_results
    (foldl (search_one w c) {| all_results := []; seen_ids := ∅ |} queries).

(** [all_results.sort(key=lambda x: x["score"], reverse=True)] *)
Definition sort_by_score (l : list Result) : list Result :=
  sort_by (λ a b, Qle_bool (score b) (score a)) l.

Definition perform_search (w : World) (c : list Doc) (queries : list string)
  : list Result :=
  take 25 (sort_by_score (merged w c queries)).

End Query.

(** * Properties *)

(** ** The stable sort returns a sorted permutation *)

Section StableSortFacts.
Context {A : Type} (leb : A → A → bool).

Lemma insert_sorted_perm x l : insert_sorted leb x l ≡ₚ x :: l.
Proof.
  induction l as [|y l IH]; simpl; [done|].
  destruct (leb x y); [done|].
  rewrite IH. apply Permutation_swap.
Qed.

Lemma sort_by_perm l : sort_by leb l ≡ₚ l.
Proof.
  induction l as [|x l IH]; simpl; [done|].
  by rewrite insert_sorted_perm, IH.
Qed.

Lemma sort_by_length l : length (sort_by leb l) = length l.
Proof. by rewrite sort_by_perm. Qed.

Hypothesis leb_total : ∀ a b, leb a b = true ∨ leb b a = true.
Hypothesis leb_trans :
  ∀ a b c, leb a b = true → leb b c = true → leb a c = true.

Lemma insert_sorted_sorted x l :
  StronglySorted (λ a b, leb a b = true) l →
  StronglySorted (λ a b, leb a b = true) (insert_sorted leb x l).
Proof.
  induction 1 as [|y l Hl IH Hy]; simpl.
  - repeat constructor.
  - destruct (leb x y) eqn:Hxy.
    + constructor; [by constructor|].
      constructor; [done|].
      eapply Forall_impl; [exact Hy|]. intros z Hz. eauto.
    + constructor; [done|].
      rewrite insert_sorted_perm. constructor; [|done].
      destruct (leb_total x y); congruence.
Qed.

Lemma sort_by_sorted l :
  StronglySorted (λ a b, leb a b = true) (sort_by leb l).
Proof.
  induction l as [|x l IH]; simpl; [constructor|].
  by apply insert_sorted_sorted.
Qed.
End StableSortFacts.

Lemma StronglySorted_impl {A} (R R' : A → A → Prop) l :
  (∀ a b, R a b → R' a b) → StronglySorted R l → StronglySorted R' l.
Proof.
  intros HR. induction 1 as [|x l Hl IH Hx]; constructor; [done|].
  eapply Forall_impl; [exact Hx|]. auto.
Qed.

Section FilterFacts.
Context {A : Type} (P : A → Prop) `{!∀ x, Decision (P x)}.

Lemma filter_all (l : list A) : Forall P l → filter P l = l.
Proof.
  induction 1 as [|x l Hx Hl IH]; [done|].
  rewrite filter_cons. destruct (decide (P x)); [|done]. by f_equal.
Qed.

Lemma filter_none (l : list A) : Forall (λ x, ¬ P x) l → filter P l = [].
Proof.
  induction 1 as [|x l Hx Hl IH]; [done|].
  rewrite filter_cons. by destruct (decide (P x)).
Qed.
End FilterFacts.

Lemma NoDup_fmap_elem_inj {A B} (f : A → B) (l : list A) x y :
  NoDup (f <$> l) → x ∈ l → y ∈ l → f x = f y → x = y.
Proof.
  induction l as [|z l IH]; intros Hnd Hx Hy Heq.
  - by apply elem_of_nil in Hx.
  - rewrite fmap_cons in Hnd. apply NoDup_cons in Hnd as [Hz Hnd].
    apply elem_of_cons in Hx as [->|Hx]; apply elem_of_cons in Hy as [->|Hy].
    + done.
    + exfalso. apply Hz. rewrite Heq. by apply list_elem_of_fmap_2.
    + exfalso. apply Hz. rewrite <- Heq. by apply list_elem_of_fmap_2.
    + by apply IH.
Qed.

(** ** Retention controller *)

Module RetentionFacts.
Import Store Retention.

Definition older_eq (a b : Doc) : Prop := (ingested_at a ≤ ingested_at b)%Z.

Lemma sort_ingested_at_perm c : sort_ingested_at c ≡ₚ c.
Proof. apply sort_by_perm. Qed.

Lemma sort_ingested_at_sorted c : StronglySorted older_eq (sort_ingested_at c).
Proof.
  unfold sort_ingested_at.
  eapply StronglySorted_impl; [|apply sort_by_sorted].
  - intros a b Hab. by apply Z.leb_le.
  - intros a b. rewrite !Z.leb_le. lia.
  - intros a b d. rewrite !Z.leb_le. lia.
Qed.

Lemma limit_sublist n c : sublist (limit n c) c.
Proof.
  unfold limit. destruct (n =? 0)%Z; [done|]. apply sublist_take.
Qed.

Lemma limit_pos n c : (0 < n)%Z → limit n c = take (Z.to_nat n) c.
Proof. unfold limit. intros Hn. destruct (Z.eqb_spec n 0); [lia|done]. Qed.

(** The selection only holds documents the filter lets through. *)
Lemma docs_to_delete_ne_classic c max_items d :
  d ∈ docs_to_delete c max_items → type d ≠ Some "classic".
Proof.
  unfold docs_to_delete. intros Hd.
  apply (sublist_subseteq _ _ (limit_sublist _ _)) in Hd.
  rewrite sort_ingested_at_perm in Hd.
  unfold find_type_ne_classic in Hd.
  by apply list_elem_of_filter in Hd as [? _].
Qed.

Lemma docs_to_delete_in c max_items d :
  d ∈ docs_to_delete c max_items → d ∈ c.
Proof.
  unfold docs_to_delete. intros Hd.
  apply (sublist_subseteq _ _ (limit_sublist _ _)) in Hd.
  rewrite sort_ingested_at_perm in Hd.
  unfold find_type_ne_classic in Hd.
  by apply list_elem_of_filter in Hd as [_ ?].
Qed.

(** The collection splits into the selection and the rest. *)
Definition kept (c : list Doc) (max_items : Z) : list Doc :=
  drop (Z.to_nat (count_documents c - max_items))
       (sort_ingested_at (find_type_ne_classic c))
  ++ filter (λ d, ¬ type d ≠ Some "classic") c.

Lemma collection_split c max_items :
  (count_documents c > max_items)%Z →
  c ≡ₚ docs_to_delete c max_items ++ kept c max_items.
Proof.
  intros Hover. unfold docs_to_delete, kept.
  rewrite limit_pos by lia.
  rewrite (assoc_L (++)), take_drop, sort_ingested_at_perm.
  unfold find_type_ne_classic. by rewrite filter_app_complement.
Qed.

Lemma delete_many_perm c sel rest :
  NoDup (ids c) → c ≡ₚ sel ++ rest → delete_many (ids sel) c ≡ₚ rest.
Proof.
  intros Hnd Hperm. unfold delete_many.
  rewrite Hperm, filter_app.
  unfold ids in Hnd. rewrite Hperm, fmap_app in Hnd.
  apply NoDup_app in Hnd as (_ & Hdisj & _).
  rewrite filter_none, filter_all; [done| |].
  - apply Forall_forall. intros d Hd Hin. apply (Hdisj _ Hin).
    by apply list_elem_of_fmap_2.
  - apply Forall_forall. intros d Hd Hnin. apply Hnin.
    by apply list_elem_of_fmap_2.
Qed.

Lemma NoDup_ids_inj (c : list Doc) d d' :
  NoDup (ids c) → d ∈ c → d' ∈ c → _id d = _id d' → d = d'.
Proof. apply NoDup_fmap_elem_inj. Qed.

Lemma lookup_index_delete batch (idx : gmap string Vector) i :
  index_delete batch idx !! i = if decide (i ∈ batch) then None else idx !! i.
Proof.
  unfold index_delete. revert idx.
  induction batch as [|j batch IH]; intros idx.
  - done.
  - cbn [foldl]. rewrite IH. destruct (decide (i ∈ batch)) as [Hin|Hnin].
    + rewrite decide_True; [done|]. by right.
    + destruct (decide (i = j)) as [->|Hne].
      * rewrite lookup_delete_eq. rewrite decide_True; [done|]. by left.
      * rewrite lookup_delete_ne by done.
        rewrite decide_False; [done|].
        by intros [?|?]%elem_of_cons.
Qed.

Lemma index_delete_batches bs (idx : gmap string Vector) :
  foldl (λ m batch, index_delete batch m) idx bs = index_delete (concat bs) idx.
Proof.
  revert idx. induction bs as [|b bs IH]; intros idx; simpl; [done|].
  rewrite IH. unfold index_delete. by rewrite foldl_app.
Qed.

Lemma concat_slices size m (l : list string) :
  length l ≤ m * size →
  concat ((λ k, take size (drop (k * size) l)) <$> seq 0 m) = l.
Proof.
  revert l. induction m as [|m IH]; intros l Hlen.
  - simpl in *. by destruct l; simpl in *; [|lia].
  - rewrite <- cons_seq, <- fmap_S_seq, fmap_cons, <- list_fmap_compose.
    simpl. rewrite drop_0.
    rewrite <- (take_drop size l) at 2. f_equal.
    rewrite <- (IH (drop size l)) by (rewrite length_drop; lia).
    f_equal. apply list_fmap_ext. intros _ k _. simpl.
    by rewrite drop_drop.
Qed.

Lemma concat_batches size (l : list string) :
  0 < size → concat (batches size l) = l.
Proof.
  intros Hsize. unfold batches, range0.
  rewrite <- list_fmap_compose. apply concat_slices.
  pose proof (Nat.div_mod_eq (length l + size - 1) size) as Hdm.
  pose proof (Nat.mod_upper_bound (length l + size - 1) size ltac:(lia)).
  nia.
Qed.

(** What one run does when the collection is over the cap. *)
Lemma cleanup_over s max_items :
  NoDup (ids (collection s)) →
  (count_documents (collection s) > max_items)%Z →
  let s' := cleanup_old_items s max_items in
  collection s' ≡ₚ kept (collection s) max_items ∧
  ∀ i, index s' !! i =
       if decide (i ∈ ids (docs_to_delete (collection s) max_items))
       then None else index s !! i.
Proof.
  intros Hnd Hover. simpl.
  pose proof (collection_split _ _ Hover) as Hsplit.
  unfold cleanup_old_items.
  destruct (Z.gtb_spec (count_documents (collection s)) max_items); [|lia].
  destruct (ids (docs_to_delete (collection s) max_items)) eqn:Hids.
  - apply fmap_nil_inv in Hids. rewrite Hids in Hsplit. simpl in Hsplit.
    split; [done|]. intros i.
    case_decide as Hin; [by apply elem_of_nil in Hin|done].
  - rewrite <- Hids. simpl. split.
    + by apply delete_many_perm.
    + intros i. rewrite index_delete_batches, concat_batches by lia.
      apply lookup_index_delete.
Qed.

Lemma cleanup_under s max_items :
  (count_documents (collection s) ≤ max_items)%Z →
  cleanup_old_items s max_items = s.
Proof.
  intros Hle. unfold cleanup_old_items.
  by destruct (Z.gtb_spec (count_documents (collection s)) max_items); [lia|].
Qed.

Lemma is_classic_iff (d : Doc) :
  ¬ type d ≠ Some "classic" ↔ type d = Some "classic".
Proof. split; [apply dec_stable|auto]. Qed.

Lemma kept_ne_classic c max_items d :
  d ∈ kept c max_items → type d ≠ Some "classic" →
  d ∈ drop (Z.to_nat (count_documents c - max_items))
           (sort_ingested_at (find_type_ne_classic c)).
Proof.
  unfold kept. intros [Hd|Hd]%elem_of_app Hty; [done|].
  by apply list_elem_of_filter in Hd as [? _].
Qed.

Lemma classic_kept c max_items d :
  d ∈ c → type d = Some "classic" → d ∈ kept c max_items.
Proof.
  intros Hd Hty. unfold kept. apply elem_of_app. right.
  apply list_elem_of_filter. split; [|done]. by apply is_classic_iff.
Qed.

Lemma length_ne_classic c :
  length (find_type_ne_classic c)
  + length (filter (λ d, type d = Some "classic") c) = length c.
Proof.
  rewrite <- (filter_app_complement (λ d, type d ≠ Some "classic") c) at 3.
  rewrite length_app. unfold find_type_ne_classic. do 2 f_equal.
  apply list_filter_iff. intros d. symmetry. apply is_classic_iff.
Qed.

Lemma length_docs_to_delete c max_items :
  (count_documents c > max_items)%Z →
  length (docs_to_delete c max_items)
  = Z.to_nat (count_documents c - max_items) `min`
    length (find_type_ne_classic c).
Proof.
  intros Hover. unfold docs_to_delete. rewrite limit_pos by lia.
  rewrite length_take. unfold sort_ingested_at. by rewrite sort_by_length.
Qed.

Lemma length_cleanup s max_items :
  NoDup (ids (collection s)) →
  (count_documents (collection s) > max_items)%Z →
  length (collection (cleanup_old_items s max_items))
  + length (docs_to_delete (collection s) max_items)
  = length (collection s).
Proof.
  intros Hnd Hover.
  destruct (cleanup_over s max_items Hnd Hover) as [Hperm _].
  rewrite Hperm.
  rewrite (collection_split _ _ Hover) at 3.
  rewrite length_app. lia.
Qed.

(** C1. Protection invariant: whatever the cap and the ages, the selection
    of [cleanup_old_items] holds no document of type classic; in a
    collection with unique ids every classic document and its vector
    survive the run; and when the selection is empty, or the cap is
    already met, the run returns the stores as they were. *)
Theorem classic_never_selected (s : Stores) (max_items : Z)
    (Huniq : NoDup (ids (collection s))) :
  let s' := cleanup_old_items s max_items in
  (∀ d, d ∈ docs_to_delete (collection s) max_items →
        type d ≠ Some "classic") ∧
  (∀ d, d ∈ collection s → type d = Some "classic" →
        d ∈ collection s' ∧ index s' !! _id d = index s !! _id d) ∧
  (docs_to_delete (collection s) max_items = [] → s' = s) ∧
  ((count_documents (collection s) ≤ max_items)%Z → s' = s).
Proof.
  simpl. split; [|split; [|split]].
  - intros d. apply docs_to_delete_ne_classic.
  - intros d Hd Hty.
    destruct (Z_gt_le_dec (count_documents (collection s)) max_items)
      as [Hover|Hle]; [|by rewrite cleanup_under].
    destruct (cleanup_over s max_items Huniq Hover) as [Hperm Hidx].
    split.
    + rewrite Hperm. by apply classic_kept.
    + rewrite Hidx. rewrite decide_False; [done|].
      intros (d' & Heq & Hd')%list_elem_of_fmap.
      assert (d = d') as <-.
      { eapply NoDup_ids_inj; eauto using docs_to_delete_in. }
      by apply docs_to_delete_ne_classic in Hd'.
  - intros Hnil. unfold cleanup_old_items. rewrite Hnil. simpl.
    by destruct (_ >? _)%Z.
  - apply cleanup_under.
Qed.

(** C2. Cap convergence: after a run on a collection with unique ids the
    count is at most the cap or no non-classic document is left. For
    30,050 documents, 3,000 of them classic, and cap 30,000, the run
    deletes exactly 50 documents, none classic and none newer than a
    non-classic document that stays, from the collection and from the
    index, and 30,000 documents are left. *)
Theorem cap_convergence (s : Stores) (max_items : Z)
    (Huniq : NoDup (ids (collection s))) :
  let s' := cleanup_old_items s max_items in
  let del := docs_to_delete (collection s) max_items in
  ((count_documents (collection s') ≤ max_items)%Z ∨
   find_type_ne_classic (collection s') = []) ∧
  (count_documents (collection s) = 30050%Z →
   count_documents (filter (λ d, type d = Some "classic") (collection s))
     = 3000%Z →
   max_items = 30000%Z →
   length del = 50 ∧
   (∀ d, d ∈ del → type d ≠ Some "classic") ∧
   (∀ d d', d ∈ del → d' ∈ collection s' → type d' ≠ Some "classic" →
            (ingested_at d ≤ ingested_at d')%Z) ∧
   (∀ d, d ∈ collection s' ↔ d ∈ collection s ∧ d ∉ del) ∧
   (∀ i, index s' !! i =
         if decide (i ∈ ids del) then None else index s !! i) ∧
   count_documents (collection s') = 30000%Z).
Proof.
  simpl. split.
  - destruct (Z_gt_le_dec (count_documents (collection s)) max_items)
      as [Hover|Hle]; [|left; by rewrite cleanup_under].
    pose proof (length_cleanup s max_items Huniq Hover) as Hlen.
    pose proof (length_docs_to_delete _ _ Hover) as Hdel.
    destruct (cleanup_over s max_items Huniq Hover) as [Hperm _].
    destruct (decide (Z.to_nat (count_documents (collection s) - max_items)
                      ≤ length (find_type_ne_classic (collection s))))
      as [Hk|Hk].
    + left. unfold count_documents in *. lia.
    + right. apply Permutation_nil_r. unfold find_type_ne_classic at 1.
      rewrite Hperm. unfold kept.
      rewrite drop_ge
        by (unfold sort_ingested_at; rewrite sort_by_length; lia).
      simpl. rewrite filter_none; [done|].
      apply Forall_forall. intros d Hd.
      by apply list_elem_of_filter in Hd as [? _].
  - intros Hcount Hclassic ->.
    assert (count_documents (collection s) > 30000)%Z as Hover by lia.
    pose proof (length_cleanup s _ Huniq Hover) as Hlen.
    pose proof (length_docs_to_delete _ _ Hover) as Hdel.
    pose proof (length_ne_classic (collection s)) as Hsum.
    pose proof (collection_split _ _ Hover) as Hsplit.
    destruct (cleanup_over s _ Huniq Hover) as [Hperm Hidx].
    unfold count_documents in Hcount, Hclassic, Hdel.
    assert (length (docs_to_delete (collection s) 30000) = 50) as Hfifty
      by lia.
    split; [done|]. split; [apply docs_to_delete_ne_classic|].
    split; [|split; [|split; [done|unfold count_documents; lia]]].
    + intros d d' Hd Hd' Hty. rewrite Hperm in Hd'.
      apply kept_ne_classic in Hd'; [|done].
      unfold docs_to_delete in Hd. rewrite limit_pos in Hd by lia.
      pose proof (sort_ingested_at_sorted
                    (find_type_ne_classic (collection s))) as Hsorted.
      rewrite <- (take_drop
        (Z.to_nat (count_documents (collection s) - 30000))) in Hsorted.
      by apply (StronglySorted_app_1_elem_of _ _ _ d d') in Hsorted.
    + intros d.
      assert (NoDup (collection s)) as Hnd
        by (by apply (NoDup_fmap_1 _id)).
      apply (NoDup_Permutation_proper _ _ Hsplit) in Hnd.
      apply NoDup_app in Hnd as (_ & Hdisj & _).
      pose proof (elem_of_Permutation_proper d _ _ Hsplit) as Hmem.
      pose proof (elem_of_Permutation_proper d _ _ Hperm) as Hmem'.
      rewrite Hmem', Hmem, elem_of_app.
      split; [|intros [[?|?] ?]; done].
      intros Hd. split; [by right|]. intros Hin. by apply (Hdisj d).
Qed.

End RetentionFacts.

(** ** Query engine *)

Module QueryFacts.
Import Store Env Query.

Definition score_ge (a b : Result) : Prop := (score b <= score a)%Q.

Lemma sort_by_score_perm l : sort_by_score l ≡ₚ l.
Proof. apply sort_by_perm. Qed.

Lemma sort_by_score_sorted l : StronglySorted score_ge (sort_by_score l).
Proof.
  unfold sort_by_score.
  eapply StronglySorted_impl; [|apply sort_by_sorted].
  - intros a b Hab. by apply Qle_bool_iff.
  - intros a b. rewrite !Qle_bool_iff.
    destruct (Qlt_le_dec (score a) (score b)) as [Hlt|Hle]; [|by left].
    right. by apply Qlt_le_weak.
  - intros a b d. rewrite !Qle_bool_iff. intros H1 H2.
    by apply Qle_trans with (score b).
Qed.

Lemma perform_search_subseteq w c queries r :
  r ∈ perform_search w c queries → r ∈ merged w c queries.
Proof.
  unfold perform_search. intros Hr.
  apply subseteq_take in Hr. by rewrite sort_by_score_perm in Hr.
Qed.

(** The accumulator keeps [seen_ids] in step with [all_results], and holds
    one entry per id. *)
Record acc_wf (acc : Acc) : Prop := {
  wf_seen : ∀ i, i ∈ seen_ids acc ↔ i ∈ id <$> all_results acc;
  wf_nodup : NoDup (id <$> all_results acc)
}.

Lemma acc_wf_empty : acc_wf {| all_results := []; seen_ids := ∅ |}.
Proof. split; simpl; [set_solver|constructor]. Qed.

Lemma add_meta_wf scores acc meta :
  acc_wf acc → acc_wf (add_meta scores acc meta).
Proof.
  intros [Hseen Hnd]. unfold add_meta. case_bool_decide as Hnew; [|done].
  split; simpl.
  - intros i. rewrite fmap_app, elem_of_app, elem_of_union, Hseen. simpl.
    rewrite elem_of_singleton, list_elem_of_singleton. done.
  - rewrite fmap_app. apply NoDup_app. split; [done|]. split.
    + intros i Hi ->%list_elem_of_singleton. simpl in Hnew.
      by apply Hnew, Hseen.
    + apply NoDup_singleton.
Qed.

Lemma add_meta_prefix scores acc meta :
  all_results acc `prefix_of` all_results (add_meta scores acc meta).
Proof.
  unfold add_meta. case_bool_decide; [|done]. simpl. by apply prefix_app_r.
Qed.

Lemma fold_add_meta_wf scores metas acc :
  acc_wf acc → acc_wf (foldl (add_meta scores) acc metas).
Proof.
  revert acc. induction metas as [|m metas IH]; intros acc Hwf; [done|].
  simpl. by apply IH, add_meta_wf.
Qed.

Lemma fold_add_meta_prefix scores metas acc :
  all_results acc `prefix_of` all_results (foldl (add_meta scores) acc metas).
Proof.
  revert acc. induction metas as [|m metas IH]; intros acc; [done|].
  simpl. etrans; [apply add_meta_prefix|apply IH].
Qed.

Lemma search_one_wf w c acc query :
  acc_wf acc → acc_wf (search_one w c acc query).
Proof.
  intros Hwf. unfold search_one.
  destruct (query_matches w query) as [matches|]; [|done].
  destruct (matches.*1); [done|]. by apply fold_add_meta_wf.
Qed.

Lemma search_one_prefix w c acc query :
  all_results acc `prefix_of` all_results (search_one w c acc query).
Proof.
  unfold search_one.
  destruct (query_matches w query) as [matches|]; [|done].
  destruct (matches.*1); [done|]. apply fold_add_meta_prefix.
Qed.

Lemma fold_search_one_wf w c queries acc :
  acc_wf acc → acc_wf (foldl (search_one w c) acc queries).
Proof.
  revert acc. induction queries as [|q queries IH]; intros acc Hwf; [done|].
  simpl. by apply IH, search_one_wf.
Qed.

Lemma fold_search_one_prefix w c queries acc :
  all_results acc `prefix_of` all_results (foldl (search_one w c) acc queries).
Proof.
  revert acc. induction queries as [|q queries IH]; intros acc; [done|].
  simpl. etrans; [apply search_one_prefix|apply IH].
Qed.

Lemma fold_add_meta_seen scores metas acc i :
  i ∈ seen_ids (foldl (add_meta scores) acc metas) →
  i ∈ seen_ids acc ∨ i ∈ _id <$> metas.
Proof.
  revert acc. induction metas as [|m metas IH]; intros acc Hi; [by left|].
  simpl in Hi. apply IH in Hi as [Hi|Hi].
  - unfold add_meta in Hi. case_bool_decide; [|by left].
    simpl in Hi. apply elem_of_union in Hi as [Hi|Hi]; [by left|].
    apply elem_of_singleton in Hi as ->. right. rewrite fmap_cons. by left.
  - right. rewrite fmap_cons. by right.
Qed.

Lemma search_one_seen w c acc query i :
  i ∈ seen_ids (search_one w c acc query) →
  i ∈ seen_ids acc ∨
  ∃ matches, query_matches w query = Some matches ∧ i ∈ matches.*1.
Proof.
  unfold search_one.
  destruct (query_matches w query) as [matches|]; [|by left].
  destruct (matches.*1) as [|j js] eqn:Hids; [by left|].
  intros [Hi|Hi]%fold_add_meta_seen; [by left|].
  right. exists matches. split; [done|].
  apply list_elem_of_fmap in Hi as (meta & -> & Hmeta).
  unfold find_id_in in Hmeta.
  apply list_elem_of_filter in Hmeta as [Hin _]. by rewrite Hids.
Qed.

(** The first document with a fresh id is the one that is captured. *)
Lemma fold_add_meta_captures scores metas acc i :
  i ∉ seen_ids acc → i ∈ _id <$> metas →
  ∃ r, r ∈ all_results (foldl (add_meta scores) acc metas) ∧
       id r = i ∧ score r = default 0%Q (scores !! i).
Proof.
  revert acc. induction metas as [|m metas IH]; intros acc Hnew Hi.
  - by apply elem_of_nil in Hi.
  - simpl. destruct (decide (_id m = i)) as [<-|Hne].
    + exists (result_of scores m). split; [|done].
      eapply elem_of_prefix; [|apply fold_add_meta_prefix].
      unfold add_meta. rewrite bool_decide_eq_true_2 by done. simpl.
      apply elem_of_app. right. by apply list_elem_of_singleton.
    + apply IH.
      * unfold add_meta. case_bool_decide; [|done]. simpl.
        intros [?|?%elem_of_singleton]%elem_of_union; done.
      * rewrite fmap_cons in Hi. by apply elem_of_cons in Hi as [?|?].
Qed.

Lemma id_to_score_ids matches i s :
  id_to_score matches !! i = Some s → i ∈ matches.*1.
Proof.
  unfold id_to_score.
  assert (∀ m : gmap string Q,
    foldl (λ m res, <[res.1 := res.2]> m) m matches !! i = Some s →
    is_Some (m !! i) ∨ i ∈ matches.*1) as Hgen.
  { induction matches as [|[j q] matches IH]; intros m Hm; [by left; eauto|].
    simpl in Hm. apply IH in Hm as [Hm|Hm].
    - simpl in Hm. destruct (decide (j = i)) as [->|Hne].
      + right. rewrite fmap_cons. by left.
      + left. by rewrite lookup_insert_ne in Hm.
    - right. rewrite fmap_cons. by right. }
  intros [[? Habs]|?]%Hgen; [|done]. by rewrite lookup_empty in Habs.
Qed.

Definition from_store (c : list Doc) (r : Result) : Prop :=
  ∃ meta, meta ∈ c ∧ id r = _id meta ∧
    res_title r = default "No Title" (title meta) ∧
    res_summary r = default "No summary available." (summary meta) ∧
    res_authors r = default "No authors listed" (authors meta) ∧
    res_pdf_url r = default "#" (pdf_url meta) ∧
    res_type r = default "recent" (type meta).

Lemma fold_add_meta_from c scores metas acc :
  metas ⊆ c → Forall (from_store c) (all_results acc) →
  Forall (from_store c) (all_results (foldl (add_meta scores) acc metas)).
Proof.
  revert acc. induction metas as [|m metas IH]; intros acc Hsub Hacc; [done|].
  simpl. apply IH; [set_solver|].
  unfold add_meta. case_bool_decide; [|done]. simpl.
  apply Forall_app. split; [done|]. apply Forall_singleton.
  exists m. split; [|done]. apply Hsub. by left.
Qed.

Lemma merged_from_store w c queries :
  Forall (from_store c) (merged w c queries).
Proof.
  unfold merged.
  assert (∀ acc, Forall (from_store c) (all_results acc) →
    Forall (from_store c) (all_results (foldl (search_one w c) acc queries)))
    as Hgen.
  { induction queries as [|q queries IH]; intros acc Hacc; [done|].
    simpl. apply IH. unfold search_one.
    destruct (query_matches w q) as [matches|]; [|done].
    destruct (matches.*1) eqn:Hids; [done|].
    apply fold_add_meta_from; [|done].
    intros d Hd. unfold find_id_in in Hd.
    by apply list_elem_of_filter in Hd as [_ ?]. }
  apply Hgen. simpl. constructor.
Qed.

Lemma fold_search_one_seen w c queries acc i :
  i ∈ seen_ids (foldl (search_one w c) acc queries) →
  i ∈ seen_ids acc ∨
  ∃ q matches, q ∈ queries ∧ query_matches w q = Some matches ∧
               i ∈ matches.*1.
Proof.
  revert acc. induction queries as [|q queries IH]; intros acc Hi; [by left|].
  simpl in Hi. apply IH in Hi as [Hi|(q' & m & Hq' & Hm & Hi)].
  - apply search_one_seen in Hi as [Hi|(m & Hm & Hi)]; [by left|].
    right. exists q, m. split; [by left|done].
  - right. exists q', m. split; [by right|done].
Qed.

(** C7. Query merge precedence: when [q1] is the first query whose matches
    hold the id [X], with score [s1], every entry for [X] in the merged
    results and in the returned list has score [s1], whatever the later
    queries match; and when the store holds a document for [X], the merged
    results hold exactly one entry for it. *)
Theorem first_query_wins (w : World) (c : list Doc) (pre post : list string)
    (q1 : string) (m1 : list (string * Q)) (X : string) (s1 : Q)
    (Hpre : ∀ q m, q ∈ pre → query_matches w q = Some m → X ∉ m.*1)
    (Hq1 : query_matches w q1 = Some m1)
    (Hs1 : id_to_score m1 !! X = Some s1) :
  let queries := pre ++ q1 :: post in
  (∀ r, r ∈ merged w c queries → id r = X → score r = s1) ∧
  (∀ r, r ∈ perform_search w c queries → id r = X → score r = s1) ∧
  (X ∈ ids c →
   ∃ r, r ∈ merged w c queries ∧ id r = X ∧ score r = s1 ∧
        ∀ r', r' ∈ merged w c queries → id r' = X → r' = r).
Proof.
  simpl.
  assert (X ∈ ids c →
    ∃ r, r ∈ merged w c (pre ++ q1 :: post) ∧ id r = X ∧ score r = s1 ∧
         ∀ r', r' ∈ merged w c (pre ++ q1 :: post) → id r' = X → r' = r)
    as Hex.
  { intros HX. unfold merged. rewrite foldl_app. simpl.
    set (acc0 := foldl (search_one w c) _ pre).
    assert (acc_wf acc0) as Hwf0
      by apply fold_search_one_wf, acc_wf_empty.
    assert (X ∉ seen_ids acc0) as Hnew.
    { intros [Hin|(q & m & Hq & Hm & Hin)]%fold_search_one_seen.
      - simpl in Hin. by apply not_elem_of_empty in Hin.
      - by apply (Hpre q m). }
    pose proof (id_to_score_ids _ _ _ Hs1) as HXm.
    assert (∃ r, r ∈ all_results (search_one w c acc0 q1) ∧
                 id r = X ∧ score r = s1) as (r & Hr & Hid & Hsc).
    { unfold search_one. rewrite Hq1.
      destruct (m1.*1) as [|j js] eqn:Hids; [by apply elem_of_nil in HXm|].
      destruct (fold_add_meta_captures (id_to_score m1)
                  (find_id_in (j :: js) c) acc0 X Hnew) as (r & ? & ? & Hsc).
      - apply list_elem_of_fmap in HX as (meta & -> & Hmeta).
        apply list_elem_of_fmap_2. unfold find_id_in.
        by apply list_elem_of_filter.
      - exists r. rewrite Hs1 in Hsc. done. }
    exists r. split; [|split; [done|split; [done|]]].
    - eapply elem_of_prefix; [exact Hr|apply fold_search_one_prefix].
    - intros r' Hr' Hid'.
      eapply (NoDup_fmap_elem_inj id); [|exact Hr'| |congruence].
      + apply fold_search_one_wf, search_one_wf, Hwf0.
      + eapply elem_of_prefix; [exact Hr|apply fold_search_one_prefix]. }
  assert (∀ r, r ∈ merged w c (pre ++ q1 :: post) → id r = X → score r = s1)
    as Hall.
  { intros r Hr Hid.
    pose proof (merged_from_store w c (pre ++ q1 :: post)) as Hfrom.
    rewrite Forall_forall in Hfrom.
    destruct (Hfrom r Hr) as (meta & Hmeta & Hrid & _).
    destruct Hex as (r0 & _ & _ & Hsc & Huniq).
    - rewrite <- Hid, Hrid. by apply list_elem_of_fmap_2.
    - by rewrite (Huniq r Hr Hid). }
  split; [done|]. split; [|done].
  intros r Hr. apply Hall. by apply perform_search_subseteq.
Qed.

(** C8. Result budget: the returned list has at most 25 entries and is
    sorted by descending score. *)
Theorem result_budget (w : World) (c : list Doc) (queries : list string) :
  length (perform_search w c queries) ≤ 25 ∧
  StronglySorted score_ge (perform_search w c queries).
Proof.
  unfold perform_search. split.
  - rewrite length_take. lia.
  - pose proof (sort_by_score_sorted (merged w c queries)) as Hsorted.
    rewrite <- (take_drop 25) in Hsorted.
    by apply StronglySorted_app_1_l in Hsorted.
Qed.

(** C10. Join with the store: every returned entry is built from a document
    of the collection with the same id, so an id the index matches but the
    collection does not hold is in no returned entry. *)
Theorem results_have_metadata (w : World) (c : list Doc)
    (queries : list string) :
  (∀ r, r ∈ perform_search w c queries → from_store c r) ∧
  (∀ i r, i ∉ ids c → r ∈ perform_search w c queries → id r ≠ i).
Proof.
  assert (∀ r, r ∈ perform_search w c queries → from_store c r) as Hfrom.
  { intros r Hr%perform_search_subseteq.
    pose proof (merged_from_store w c queries) as H.
    rewrite Forall_forall in H. by apply H. }
  split; [done|].
  intros i r Hi Hr <-. apply Hi.
  destruct (Hfrom r Hr) as (meta & Hmeta & -> & _).
  by apply list_elem_of_fmap_2.
Qed.

End QueryFacts.


(** ** Candidate discovery *)

Module DiscoveryFacts.
Import Store Env Discovery.

(** An attempt that makes the retry loop go round again. *)
Definition failed (r : Response) : Prop := r = TooManyRequests ∨ r = Failed.

(** The sleep after a failed attempt: 60 s after a 429, 5 s after an error. *)
Definition cooldown (r : Response) : nat :=
  match r with TooManyRequests => 60 | _ => 5 end.

(** The events of the failed attempts [retries], ..., [retries + j - 1]. *)
Definition failed_attempts (w : World) (offset retries j : nat) : list Event :=
  seq retries j ≫= λ k, [Get offset; Sleep (cooldown (scholar_api w offset k))].

Lemma retry_loop_succeeds w offset j : ∀ left retries data,
  j < left →
  (∀ k, retries ≤ k < retries + j → failed (scholar_api w offset k)) →
  scholar_api w offset (retries + j) = Json data →
  retry_loop w offset left retries
  = (data, failed_attempts w offset retries j ++ [Get offset]).
Proof.
  induction j as [|j IH]; intros left retries data Hlt Hfail Hok.
  - destruct left as [|left]; [lia|]. simpl.
    rewrite Nat.add_0_r in Hok. by rewrite Hok.
  - destruct left as [|left]; [lia|]. simpl.
    pose proof (Hfail retries ltac:(lia)) as Hfirst.
    rewrite (IH left (S retries) data);
      [| lia | intros k Hk; apply Hfail; lia
       | by replace (S retries + j) with (retries + S j) by lia].
    unfold failed_attempts. simpl.
    by destruct Hfirst as [-> | ->].
Qed.

Lemma retry_loop_exhausted w offset left : ∀ retries,
  (∀ k, retries ≤ k < retries + left → failed (scholar_api w offset k)) →
  retry_loop w offset left retries
  = (None, failed_attempts w offset retries left).
Proof.
  induction left as [|left IH]; intros retries Hfail; [done|].
  simpl. pose proof (Hfail retries ltac:(lia)) as Hfirst.
  rewrite (IH (S retries)) by (intros k Hk; apply Hfail; lia).
  unfold failed_attempts. simpl.
  by destruct Hfirst as [-> | ->].
Qed.

(** A page is requested at most [max_retries] times. *)
Lemma retry_loop_bounded w offset left : ∀ retries,
  length (filter (λ e, e = Get offset) (retry_loop w offset left retries).2)
  ≤ left.
Proof.
  induction left as [|left IH]; intros retries; [done|].
  simpl. specialize (IH (S retries)).
  destruct (scholar_api w offset retries);
    [destruct (retry_loop w offset left (S retries)) as [d tr]..|];
    simpl in *; rewrite ?filter_cons; simpl;
    repeat case_decide; simpl; try done; try lia.
Qed.

Lemma scholar_loop_unfold w n pages offset classic_ids :
  scholar_loop w n (S pages) offset classic_ids =
  if bool_decide (size classic_ids < n) then
    match retry_loop w offset max_retries 0 with
    | (None, tr) | (Some [], tr) => (classic_ids, tr)
    | (Some (item :: rest), tr) =>
        let classic_ids' := add_items n (item :: rest) classic_ids in
        if bool_decide (n ≤ size classic_ids') then (classic_ids', tr)
        else if bool_decide (99 * 100 < offset + page_limit)
             then (classic_ids', tr)
             else
               let '(r, tr') :=
                 scholar_loop w n pages (offset + page_limit) classic_ids' in
               (r, tr ++ Sleep 2 :: tr')
    end
  else (classic_ids, []).
Proof.
  cbn [scholar_loop]. case_bool_decide; [|done].
  by destruct (retry_loop w offset max_retries 0) as [[[|item items]|] tr].
Qed.

(** The bound on the pages is the one of the source: with offsets that are
    multiples of 100 the loop never runs out of [pages]. *)
Lemma scholar_loop_enough_pages w n k : ∀ k' offset classic_ids,
  0 < k → k ≤ k' → 99 * 100 < offset + page_limit * k →
  scholar_loop w n k' offset classic_ids
  = scholar_loop w n k offset classic_ids.
Proof.
  induction k as [|k IH]; intros k' offset classic_ids Hpos Hle Hcap; [lia|].
  destruct k' as [|k']; [lia|]. rewrite !scholar_loop_unfold.
  case_bool_decide; [|done].
  destruct (retry_loop w offset max_retries 0) as [[[|item items]|] tr];
    [done| |done].
  cbv zeta. case_bool_decide; [done|].
  case_bool_decide as Hoff; [done|].
  rewrite (IH k' (offset + page_limit)); [done|unfold page_limit in *; lia..].
Qed.

(** A world for the examples: the first curated list names two papers, the
    others cannot be fetched; the search API has one page of two papers and
    none after it. *)
Definition example_world : World := {|
  github_found_ids url :=
    if decide (url = "https://raw.githubusercontent.com/terryum/awesome-deep-learning-papers/master/README.md")
    then Some ["1706.03762"; "1810.04805"; "1706.03762"] else None;
  scholar_api offset retries :=
    if decide (offset = 0)
    then Json (Some [Some "2005.14165"; None; Some "1810.04805"])
    else Json (Some []);
  list_of_set := elements;
  arxiv_lookup _ := None;
  arxiv_week _ := [];
  encode _ := None;
  now _ := 0%Z;
  index_query _ _ := None
|}.

(** A world whose search API answers 429 to every request for the first
    page, and has a paper on the second page. *)
Definition rate_limited_world : World := {|
  github_found_ids _ := None;
  scholar_api offset retries :=
    if decide (offset = 0) then TooManyRequests
    else Json (Some [Some "2005.14165"]);
  list_of_set := elements;
  arxiv_lookup _ := None;
  arxiv_week _ := [];
  encode _ := None;
  now _ := 0%Z;
  index_query _ _ := None
|}.

(** C4. Dedup invariant: the candidates are the union of the two sources,
    each id once; only the GitHub source is cut at the limit. In the example
    world the sources 1706.03762, 1810.04805 and 1810.04805, 2005.14165 merge
    to 3 ids, and with limit 2 the union still has 3 ids. *)
Theorem merge_is_union (w : World) (limit : nat) (Hord : set_order_ok w) :
  let github_ids := fetch_classic_ids_from_github w limit in
  let scholar_ids := fetch_classic_ids_from_semantic_scholar w (limit / 2) in
  let candidates := list_of_set w (combined_ids w limit) in
  (NoDup candidates ∧
   (∀ i, i ∈ candidates ↔ i ∈ github_ids ∨ i ∈ scholar_ids) ∧
   length github_ids ≤ limit) ∧
  (fetch_classic_ids_from_github example_world 4
     = ["1706.03762"; "1810.04805"] ∧
   fetch_classic_ids_from_semantic_scholar example_world 2
     = ["1810.04805"; "2005.14165"] ∧
   list_of_set example_world (combined_ids example_world 4)
     = ["1706.03762"; "1810.04805"; "2005.14165"]) ∧
  (length (fetch_classic_ids_from_github example_world 2) = 2 ∧
   size (combined_ids example_world 2) = 3).
Proof.
  simpl. split; [|split; [by vm_compute|by vm_compute]].
  split; [|split].
  - rewrite (Hord _). apply NoDup_elements.
  - intros i. rewrite (Hord _), elem_of_elements. unfold combined_ids.
    by rewrite elem_of_union, !elem_of_list_to_set.
  - unfold fetch_classic_ids_from_github. rewrite length_take. lia.
Qed.

Lemma merge_is_union_witness :
  set_order_ok example_world ∧
  NoDup (list_of_set example_world (combined_ids example_world 4)).
Proof.
  assert (set_order_ok example_world) as Hord by (by intros X).
  split; [exact Hord|].
  exact (proj1 (proj1 (merge_is_union example_world 4 Hord))).
Defined.

(** C6, as the claim states it, fails: when the three attempts at the first
    page are answered 429, the second page, which holds a paper, is never
    requested, and the source returns no id. *)
Lemma retries_exhausted_ends_paging :
  (∀ retries, scholar_api rate_limited_world 0 retries = TooManyRequests) ∧
  scholar_api rate_limited_world 100 0 = Json (Some [Some "2005.14165"]) ∧
  (scholar_run rate_limited_world 1).2
    = [Get 0; Sleep 60; Get 0; Sleep 60; Get 0; Sleep 60] ∧
  (Get 100 ∉ (scholar_run rate_limited_world 1).2) ∧
  fetch_classic_ids_from_semantic_scholar rate_limited_world 1 = [].
Proof.
  split; [done|]. split; [done|]. split; [by vm_compute|].
  split; [|by vm_compute].
  assert ((scholar_run rate_limited_world 1).2
          = [Get 0; Sleep 60; Get 0; Sleep 60; Get 0; Sleep 60]) as ->
    by (by vm_compute).
  rewrite !not_elem_of_cons. repeat split; try done. apply not_elem_of_nil.
Qed.

(** C6, amended: a 429 is followed by a sleep of 60 s and an error by a sleep
    of 5 s, then the page is requested again, at most [max_retries] times in
    all; an attempt that succeeds after [j] failed ones gives the page; when
    all [max_retries] attempts fail, the paging loop ends there: it requests
    nothing more and returns the ids of the earlier pages. *)
Theorem retries_then_paging_ends (w : World) (n pages offset : nat)
    (classic_ids : gset string) :
  length (filter (λ e, e = Get offset) (retry_loop w offset max_retries 0).2)
    ≤ max_retries ∧
  (∀ j data, j < max_retries →
     (∀ k, k < j → failed (scholar_api w offset k)) →
     scholar_api w offset j = Json data →
     retry_loop w offset max_retries 0
     = (data, failed_attempts w offset 0 j ++ [Get offset])) ∧
  ((∀ k, k < max_retries → failed (scholar_api w offset k)) →
   size classic_ids < n →
   scholar_loop w n (S pages) offset classic_ids
   = (classic_ids, failed_attempts w offset 0 max_retries)).
Proof.
  split; [apply retry_loop_bounded|]. split.
  - intros j data Hj Hfail Hok.
    apply retry_loop_succeeds; [done| |done].
    intros k Hk. apply Hfail. lia.
  - intros Hfail Hmore. rewrite scholar_loop_unfold.
    rewrite bool_decide_eq_true_2 by done.
    rewrite retry_loop_exhausted; [done|].
    intros k Hk. apply Hfail. lia.
Qed.

Lemma retries_then_paging_ends_witness :
  (∀ k, k < max_retries → failed (scholar_api rate_limited_world 0 k)) ∧
  size (∅ : gset string) < 1 ∧
  scholar_loop rate_limited_world 1 max_pages 0 ∅
  = (∅, [Get 0; Sleep 60; Get 0; Sleep 60; Get 0; Sleep 60]).
Proof.
  assert (∀ k, k < max_retries → failed (scholar_api rate_limited_world 0 k))
    as Hfail by (intros k _; by left).
  assert (size (∅ : gset string) < 1) as Hmore by (vm_compute; lia).
  split; [exact Hfail|]. split; [exact Hmore|].
  exact (proj2 (proj2 (retries_then_paging_ends rate_limited_world 1 99 0 ∅))
           Hfail Hmore).
Defined.

End DiscoveryFacts.


(** ** Writes to the stores *)

Module StoreFacts.
Import Store.

(** The documents of a collection that carry the id [i]. *)
Definition docs_with (i : string) (c : list Doc) : list Doc :=
  filter (λ d, _id d = i) c.

Lemma apply_set_inserted op d :
  _id d = filter_id op → apply_set op d = inserted_doc op.
Proof. intros Hid. unfold apply_set, inserted_doc. by rewrite Hid. Qed.

Lemma update_one_ids op c :
  ids (update_one op c)
  = if decide (filter_id op ∈ ids c) then ids c else ids c ++ [filter_id op].
Proof.
  unfold ids. induction c as [|d c IH].
  - rewrite decide_False by apply not_elem_of_nil. done.
  - cbn [update_one]. destruct (decide (_id d = filter_id op)) as [Heq|Hne].
    + rewrite !fmap_cons. simpl. rewrite decide_True; [done|].
      rewrite Heq. by left.
    + rewrite !fmap_cons, IH.
      destruct (decide (filter_id op ∈ _id <$> c)) as [Hin|Hnin].
      * rewrite decide_True; [done|]. by right.
      * rewrite decide_False; [done|].
        by intros [?|?]%elem_of_cons.
Qed.

Lemma update_one_NoDup op c : NoDup (ids c) → NoDup (ids (update_one op c)).
Proof.
  intros Hnd. rewrite update_one_ids. case_decide as Hin; [done|].
  apply NoDup_app. split; [done|]. split; [|apply NoDup_singleton].
  intros i Hi ->%list_elem_of_singleton. done.
Qed.

Lemma update_one_same op c :
  NoDup (ids c) →
  docs_with (filter_id op) (update_one op c) = [inserted_doc op].
Proof.
  unfold docs_with, ids. induction c as [|d c IH]; intros Hnd.
  - simpl. rewrite filter_cons. by rewrite decide_True.
  - rewrite fmap_cons in Hnd. apply NoDup_cons in Hnd as [Hd Hnd].
    cbn [update_one]. destruct (decide (_id d = filter_id op)) as [Heq|Hne].
    + rewrite filter_cons, decide_True by done.
      rewrite apply_set_inserted by done. f_equal.
      apply filter_none, Forall_forall. intros d' Hd' Hid. apply Hd.
      rewrite Heq, <- Hid. by apply list_elem_of_fmap_2.
    + rewrite filter_cons, decide_False by done. by apply IH.
Qed.

Lemma update_one_other op c i :
  i ≠ filter_id op → docs_with i (update_one op c) = docs_with i c.
Proof.
  intros Hne. unfold docs_with. induction c as [|d c IH].
  - simpl. rewrite filter_cons. by rewrite decide_False.
  - cbn [update_one]. destruct (decide (_id d = filter_id op)) as [Heq|Hne'].
    + rewrite !filter_cons. simpl.
      rewrite !decide_False; [done|congruence..].
    + rewrite !filter_cons. case_decide; by rewrite IH.
Qed.

Lemma bulk_write_NoDup ops : ∀ c,
  NoDup (ids c) → NoDup (ids (bulk_write ops c)).
Proof.
  unfold bulk_write. induction ops as [|op ops IH]; intros c Hnd; [done|].
  simpl. by apply IH, update_one_NoDup.
Qed.

Lemma bulk_write_other ops i : ∀ c,
  Forall (λ o, filter_id o ≠ i) ops →
  docs_with i (bulk_write ops c) = docs_with i c.
Proof.
  unfold bulk_write. induction ops as [|op ops IH]; intros c Hops; [done|].
  apply Forall_cons in Hops as [Hop Hops]. simpl.
  rewrite IH by done. by apply update_one_other.
Qed.

(** The document of an id is the one its last write sets. *)
Lemma bulk_write_last ops1 op ops2 c :
  NoDup (ids c) →
  Forall (λ o, filter_id o ≠ filter_id op) ops2 →
  docs_with (filter_id op) (bulk_write (ops1 ++ op :: ops2) c)
  = [inserted_doc op].
Proof.
  intros Hnd Hlater. unfold bulk_write. rewrite foldl_app. simpl.
  fold (bulk_write ops1 c).
  fold (bulk_write ops2 (update_one op (bulk_write ops1 c))).
  rewrite bulk_write_other by done.
  by apply update_one_same, bulk_write_NoDup.
Qed.

Lemma update_one_ids_mono op c i : i ∈ ids c → i ∈ ids (update_one op c).
Proof.
  rewrite update_one_ids. case_decide; [done|].
  intros Hi. apply elem_of_app. by left.
Qed.

Lemma update_one_ids_new op c : filter_id op ∈ ids (update_one op c).
Proof.
  rewrite update_one_ids. case_decide; [done|].
  apply elem_of_app. right. by apply list_elem_of_singleton.
Qed.

Lemma bulk_write_ids ops i : ∀ c,
  i ∈ ids c ∨ i ∈ filter_id <$> ops → i ∈ ids (bulk_write ops c).
Proof.
  unfold bulk_write. induction ops as [|op ops IH]; intros c [Hi|Hi].
  - done.
  - by apply elem_of_nil in Hi.
  - simpl. apply IH. left. by apply update_one_ids_mono.
  - simpl. rewrite fmap_cons in Hi. apply elem_of_cons in Hi as [->|Hi].
    + apply IH. left. apply update_one_ids_new.
    + apply IH. by right.
Qed.

Lemma index_upsert_dom batch i : ∀ idx : gmap string Vector,
  is_Some (idx !! i) ∨ i ∈ batch.*1 → is_Some (index_upsert batch idx !! i).
Proof.
  unfold index_upsert.
  induction batch as [|[j v] batch IH]; intros idx [Hi|Hi].
  - done.
  - by apply elem_of_nil in Hi.
  - simpl. apply IH. left. destruct (decide (j = i)) as [->|Hne].
    + rewrite lookup_insert_eq. eauto.
    + by rewrite lookup_insert_ne.
  - simpl. rewrite fmap_cons in Hi. apply elem_of_cons in Hi as [->|Hi].
    + apply IH. left. simpl. rewrite lookup_insert_eq. eauto.
    + apply IH. by right.
Qed.

End StoreFacts.


(** ** Ingestion pipeline *)

Module IngestFacts.
Import Store Env Str Discovery Ingest StoreFacts.

(** One flush: the vectors upserted and the operations bulk-written. *)
Definition Flush : Type := list (string * Vector) * list UpdateOne.

Definition flush_writes (fl : list Flush) : list Write :=
  fl ≫= λ f, [Upsert f.1; BulkWrite f.2].

Definition apply_flush (s : Stores) (f : Flush) : Stores :=
  {| collection := bulk_write f.2 (collection s);
     index := index_upsert f.1 (index s) |}.

(** The staged vectors and operations carry the same ids in the same order. *)
Definition aligned (vb : list (string * Vector)) (mb : list UpdateOne) : Prop :=
  vb.*1 = filter_id <$> mb.

Definition flushed (fl : list Flush) : list (string * Vector) :=
  concat fl.*1.

(** What holds after every iteration of a mode that started in [st0]. *)
Record mode_inv (st0 st : State) (fl : list Flush) : Prop := {
  inv_log : log st = log st0 ++ flush_writes fl;
  inv_stores : stores st = foldl apply_flush (stores st0) fl;
  inv_full : Forall (λ f : Flush, length f.1 = BATCH_SIZE) fl;
  inv_aligned : Forall (λ f : Flush, aligned f.1 f.2) fl;
  inv_batch : aligned (vectors_batch st) (mongo_batch st);
  inv_small : length (vectors_batch st) < BATCH_SIZE;
  inv_count : ingested st = length (flushed fl) + length (vectors_batch st);
  inv_processed :
    processed_ids st
    = processed_ids st0
      ∪ list_to_set ((flushed fl).*1 ++ (vectors_batch st).*1)
}.

Lemma BATCH_SIZE_pos : 0 < BATCH_SIZE.
Proof. unfold BATCH_SIZE. lia. Qed.

Lemma flush_writes_snoc fl f :
  flush_writes (fl ++ [f]) = flush_writes fl ++ [Upsert f.1; BulkWrite f.2].
Proof. unfold flush_writes. by rewrite bind_app. Qed.

Lemma flushed_snoc fl f : flushed (fl ++ [f]) = flushed fl ++ f.1.
Proof.
  unfold flushed. rewrite fmap_app, concat_app. simpl. by rewrite app_nil_r.
Qed.

Lemma mode_inv_init st0 :
  vectors_batch st0 = [] → mongo_batch st0 = [] → ingested st0 = 0 →
  mode_inv st0 st0 [].
Proof.
  intros Hvb Hmb Hcount. pose proof BATCH_SIZE_pos.
  split; rewrite ?Hvb, ?Hmb, ?Hcount; simpl; try done.
  - by rewrite app_nil_r.
  - by rewrite union_empty_r_L.
Qed.

Lemma stage_inv w ty doc_id ttl cleaned auths url embedding st0 st fl :
  mode_inv st0 st fl →
  ∃ fl', mode_inv st0
           (stage w ty doc_id ttl cleaned auths url embedding st) fl'.
Proof.
  intros [Hlog Hstores Hfull Hal Hbatch Hsmall Hcount Hproc].
  pose proof BATCH_SIZE_pos as Hpos.
  unfold stage. cbv zeta. cbn [vectors_batch].
  set (op := {| filter_id := doc_id; set_title := ttl |}).
  case_bool_decide as Hreach.
  - rewrite length_app in Hreach. simpl in Hreach.
    exists (fl ++ [(vectors_batch st ++ [(doc_id, embedding)],
                    mongo_batch st ++ [op])]).
    split; simpl.
    + by rewrite flush_writes_snoc, Hlog, (assoc_L (++)).
    + by rewrite foldl_app, Hstores.
    + apply Forall_app. split; [done|]. apply Forall_singleton. simpl.
      rewrite length_app. simpl. lia.
    + apply Forall_app. split; [done|]. apply Forall_singleton. simpl.
      unfold aligned in *. rewrite !fmap_app, Hbatch. done.
    + done.
    + done.
    + rewrite flushed_snoc. simpl. rewrite !length_app. simpl. lia.
    + rewrite flushed_snoc, Hproc. simpl.
      rewrite !fmap_app, !list_to_set_app_L. simpl. set_solver.
  - rewrite length_app in Hreach. simpl in Hreach.
    exists fl. split; simpl; try done.
    + unfold aligned in *. rewrite !fmap_app, Hbatch. done.
    + rewrite length_app. simpl. lia.
    + rewrite length_app. simpl. lia.
    + rewrite Hproc, !fmap_app, !list_to_set_app_L. simpl. set_solver.
Qed.

Lemma classic_item_inv w arxiv_id st0 st fl :
  mode_inv st0 st fl → ∃ fl', mode_inv st0 (classic_item w st arxiv_id) fl'.
Proof.
  intros Hinv. unfold classic_item.
  destruct (fetch_arxiv_metadata w arxiv_id) as [meta|]; [|by exists fl].
  destruct (encode w _) as [embedding|]; [|by exists fl].
  by eapply stage_inv.
Qed.

Lemma classic_fold_inv w new_ids : ∀ st0 st fl,
  mode_inv st0 st fl →
  ∃ fl', mode_inv st0 (foldl (classic_item w) st new_ids) fl'.
Proof.
  induction new_ids as [|i new_ids IH]; intros st0 st fl Hinv; [by exists fl|].
  simpl. destruct (classic_item_inv w i _ _ _ Hinv) as [fl' Hinv'].
  by eapply IH.
Qed.

Lemma recent_week_inv w results : ∀ st0 st fl,
  mode_inv st0 st fl → ∃ fl', mode_inv st0 (recent_week w results st) fl'.
Proof.
  induction results as [|paper rest IH]; intros st0 st fl Hinv; [by exists fl|].
  cbn [recent_week]. case_bool_decide; [by eapply IH|].
  destruct (encode w _) as [embedding|]; [|by exists fl].
  edestruct stage_inv as [fl' Hinv']; [exact Hinv|].
  case_bool_decide; [by exists fl'|]. by eapply IH.
Qed.

Lemma recent_loop_inv w windows : ∀ weeks_to_go_back st0 st fl,
  mode_inv st0 st fl →
  ∃ fl', mode_inv st0 (recent_loop w windows weeks_to_go_back st) fl'.
Proof.
  induction windows as [|windows IH]; intros weeks st0 st fl Hinv;
    [by exists fl|].
  cbn [recent_loop]. case_bool_decide; [|by exists fl].
  destruct (recent_week_inv w (arxiv_week w weeks) _ _ _ Hinv) as [fl' Hinv'].
  by eapply IH.
Qed.

(** What holds when a mode has run, final flush included. *)
Record mode_done (st0 st : State) (fl : list Flush) : Prop := {
  done_log : log st = log st0 ++ flush_writes fl;
  done_stores : stores st = foldl apply_flush (stores st0) fl;
  done_threshold :
    ∀ fl1 f fl2, fl = fl1 ++ f :: fl2 → fl2 ≠ [] → length f.1 = BATCH_SIZE;
  done_sizes : Forall (λ f : Flush, 0 < length f.1 ≤ BATCH_SIZE) fl;
  done_aligned : Forall (λ f : Flush, aligned f.1 f.2) fl;
  done_batch : aligned (vectors_batch st) (mongo_batch st);
  done_count : ingested st = length (flushed fl);
  done_processed :
    processed_ids st = processed_ids st0 ∪ list_to_set (flushed fl).*1
}.

Lemma final_flush_done st0 st fl :
  mode_inv st0 st fl → ∃ fl', mode_done st0 (final_flush st) fl'.
Proof.
  intros [Hlog Hstores Hfull Hal Hbatch Hsmall Hcount Hproc].
  pose proof BATCH_SIZE_pos as Hpos.
  unfold final_flush. destruct (vectors_batch st) as [|x vb] eqn:Hvb.
  - exists fl. split; try done.
    + intros fl1 f fl2 -> _. apply Forall_app in Hfull as [_ Hfull].
      by apply Forall_cons in Hfull as [? _].
    + eapply Forall_impl; [exact Hfull|]. simpl. intros f ->. lia.
    + by rewrite Hvb.
    + rewrite Hcount. simpl. lia.
    + rewrite Hproc. simpl. by rewrite app_nil_r.
  - exists (fl ++ [(x :: vb, mongo_batch st)]).
    split; simpl; rewrite ?Hvb.
    + by rewrite flush_writes_snoc, Hlog, (assoc_L (++)).
    + by rewrite foldl_app, Hstores.
    + intros fl1 f fl2 Heq Hne.
      destruct (exists_last Hne) as (fl2' & f' & ->).
      rewrite app_comm_cons, app_assoc in Heq.
      apply app_inj_tail in Heq as [-> _].
      apply Forall_app in Hfull as [_ Hfull].
      by apply Forall_cons in Hfull as [? _].
    + apply Forall_app. split.
      * eapply Forall_impl; [exact Hfull|]. simpl. intros f ->. lia.
      * apply Forall_singleton. simpl in *. lia.
    + apply Forall_app. split; [done|]. by apply Forall_singleton.
    + done.
    + rewrite flushed_snoc, length_app. simpl. rewrite Hcount. simpl. lia.
    + rewrite flushed_snoc, Hproc, fmap_app. done.
Qed.

Lemma classic_done w st limit :
  new_classic_ids w (processed_ids st) limit ≠ [] →
  ∃ fl, mode_done (mode_start st) (ingest_classic_papers w st limit) fl.
Proof.
  intros Hnew. unfold ingest_classic_papers.
  destruct (new_classic_ids w (processed_ids st) limit) as [|i new_ids];
    [done|].
  destruct (classic_fold_inv w (i :: new_ids) (mode_start st) (mode_start st) [])
    as [fl Hinv]; [by apply mode_inv_init|].
  by eapply final_flush_done.
Qed.

Lemma classic_nothing_new w st limit :
  new_classic_ids w (processed_ids st) limit = [] →
  ingest_classic_papers w st limit = st.
Proof. intros Hnew. unfold ingest_classic_papers. by rewrite Hnew. Qed.

Lemma recent_done w st :
  ∃ fl, mode_done (mode_start st) (ingest_recent_papers w st) fl.
Proof.
  unfold ingest_recent_papers.
  destruct (recent_loop_inv w max_windows 0 (mode_start st) (mode_start st) [])
    as [fl Hinv]; [by apply mode_inv_init|].
  by eapply final_flush_done.
Qed.

(** Every flushed id has a vector in the index and a document in the
    collection afterwards. *)
Lemma flushed_in_stores fl : ∀ s i,
  Forall (λ f : Flush, aligned f.1 f.2) fl →
  (is_Some (index s !! i) ∧ i ∈ ids (collection s)) ∨ i ∈ (flushed fl).*1 →
  is_Some (index (foldl apply_flush s fl) !! i) ∧
  i ∈ ids (collection (foldl apply_flush s fl)).
Proof.
  induction fl as [|f fl IH]; intros s i Hal Hi.
  - destruct Hi as [Hi|Hi]; [done|]. by apply elem_of_nil in Hi.
  - apply Forall_cons in Hal as [Hf Hal]. simpl. apply IH; [done|].
    unfold flushed in Hi. rewrite fmap_cons in Hi. simpl in Hi.
    rewrite fmap_app, elem_of_app in Hi.
    destruct Hi as [[Hidx Hcol]|[Hi|Hi]].
    + left. simpl. split.
      * apply index_upsert_dom. by left.
      * apply bulk_write_ids. by left.
    + left. simpl. split.
      * apply index_upsert_dom. by right.
      * apply bulk_write_ids. right. by rewrite <- Hf.
    + by right.
Qed.

(** What a mode that started in [st] and ended in [st'] has written. *)
Definition mode_summary (st st' : State) (fl : list Flush) : Prop :=
  log st' = log st ++ flush_writes fl ∧
  stores st' = foldl apply_flush (stores st) fl ∧
  (∀ fl1 f fl2, fl = fl1 ++ f :: fl2 → fl2 ≠ [] → length f.1 = BATCH_SIZE) ∧
  Forall (λ f : Flush, 0 < length f.1 ≤ BATCH_SIZE) fl ∧
  processed_ids st' = processed_ids st ∪ list_to_set (flushed fl).*1 ∧
  (∀ i, i ∈ processed_ids st' → i ∉ processed_ids st →
        is_Some (index (stores st') !! i) ∧ i ∈ ids (collection (stores st'))).

Lemma mode_done_summary st st' fl :
  mode_done (mode_start st) st' fl → mode_summary st st' fl.
Proof.
  intros [Hlog Hstores Hthr Hsizes Hal _ _ Hproc]. simpl in *.
  split; [done|]. split; [done|]. split; [done|]. split; [done|].
  split; [done|]. intros i Hi Hnew.
  rewrite Hstores. apply flushed_in_stores; [done|]. right.
  rewrite Hproc in Hi. set_solver.
Qed.

Lemma mode_summary_nil st : mode_summary st st [].
Proof.
  repeat split; simpl; try done.
  - by rewrite app_nil_r.
  - by intros [] ? ? ?.
  - by rewrite union_empty_r_L.
Qed.

(** C5. Batching and flush: a staged write that brings the batch to
    [BATCH_SIZE] upserts the vectors, then bulk-writes the operations, and
    clears both buffers, and below the threshold it only stages. A run of
    either mode sends its writes as flushes, each an upsert followed by a
    bulk write; every flush but the last holds [BATCH_SIZE] items and the
    last is not empty; every id the run recorded as processed was flushed
    and is in both stores afterwards; the papers counted are the papers
    flushed. *)
Theorem flush_at_threshold_and_end (w : World) (st : State) (limit : nat) :
  (∀ ty doc_id ttl cleaned auths url embedding,
     let st' := stage w ty doc_id ttl cleaned auths url embedding st in
     let vb := vectors_batch st ++ [(doc_id, embedding)] in
     let mb := mongo_batch st ++
       [{| filter_id := doc_id; set_title := ttl; set_summary := cleaned;
           set_authors := auths; set_pdf_url := url;
           set_ingested_at := now w (ticks st); set_type := ty |}] in
     if decide (BATCH_SIZE ≤ length vb) then
       vectors_batch st' = [] ∧ mongo_batch st' = [] ∧
       log st' = log st ++ [Upsert vb; BulkWrite mb] ∧
       stores st' = apply_flush (stores st) (vb, mb)
     else
       vectors_batch st' = vb ∧ mongo_batch st' = mb ∧
       log st' = log st ∧ stores st' = stores st) ∧
  (∃ fl, mode_summary st (ingest_classic_papers w st limit) fl ∧
         (new_classic_ids w (processed_ids st) limit ≠ [] →
          ingested (ingest_classic_papers w st limit) = length (flushed fl))) ∧
  (∃ fl, mode_summary st (ingest_recent_papers w st) fl ∧
         ingested (ingest_recent_papers w st) = length (flushed fl)).
Proof.
  split; [|split].
  - intros ty doc_id ttl cleaned auths url embedding. simpl.
    unfold stage. cbv zeta. cbn [vectors_batch].
    destruct (decide (BATCH_SIZE ≤ _)) as [Hreach|Hreach].
    + by rewrite bool_decide_eq_true_2.
    + by rewrite bool_decide_eq_false_2.
  - destruct (decide (new_classic_ids w (processed_ids st) limit = []))
      as [Hnil|Hnew].
    + exists []. rewrite classic_nothing_new by done.
      split; [apply mode_summary_nil|done].
    + destruct (classic_done w st limit Hnew) as [fl Hdone].
      exists fl. split; [by apply mode_done_summary|].
      intros _. by destruct Hdone.
  - destruct (recent_done w st) as [fl Hdone].
    exists fl. split; [by apply mode_done_summary|]. by destruct Hdone.
Qed.

(** C9. Lockstep: after any number of papers of classic mode, and after any
    number of weekly windows of recent mode followed by any number of papers
    of the next window, the staged vectors and the staged operations carry
    the same ids in the same order (so the two batches have the same
    length), and every flush a run sends upserts and bulk-writes the same
    ids. *)
Theorem batches_in_lockstep (w : World) (st : State) (limit : nat) :
  (∀ k,
     let st_k :=
       foldl (classic_item w) (mode_start st)
             (take k (new_classic_ids w (processed_ids st) limit)) in
     aligned (vectors_batch st_k) (mongo_batch st_k) ∧
     length (vectors_batch st_k) = length (mongo_batch st_k)) ∧
  (∀ windows k,
     let st_w := recent_loop w windows 0 (mode_start st) in
     let st_k := recent_week w (take k (arxiv_week w windows)) st_w in
     aligned (vectors_batch st_k) (mongo_batch st_k) ∧
     length (vectors_batch st_k) = length (mongo_batch st_k)) ∧
  (∃ fl, log (ingest_classic_papers w st limit) = log st ++ flush_writes fl ∧
         Forall (λ f : Flush, f.1.*1 = filter_id <$> f.2) fl) ∧
  (∃ fl, log (ingest_recent_papers w st) = log st ++ flush_writes fl ∧
         Forall (λ f : Flush, f.1.*1 = filter_id <$> f.2) fl).
Proof.
  assert (∀ vb mb, aligned vb mb → length vb = length mb) as Hlen.
  { intros vb mb Hal. unfold aligned in Hal.
    by rewrite <- (length_fmap fst vb), Hal, length_fmap. }
  split; [|split; [|split]].
  - intros k. simpl.
    destruct (classic_fold_inv w
                (take k (new_classic_ids w (processed_ids st) limit))
                (mode_start st) (mode_start st) []) as [fl Hinv];
      [by apply mode_inv_init|].
    destruct Hinv. auto.
  - intros windows k. simpl.
    destruct (recent_loop_inv w windows 0 (mode_start st) (mode_start st) [])
      as [fl Hinv]; [by apply mode_inv_init|].
    destruct (recent_week_inv w (take k (arxiv_week w windows)) _ _ _ Hinv)
      as [fl' Hinv'].
    destruct Hinv'. auto.
  - destruct (decide (new_classic_ids w (processed_ids st) limit = []))
      as [Hnil|Hnew].
    + exists []. rewrite classic_nothing_new by done.
      split; [by rewrite app_nil_r|done].
    + destruct (classic_done w st limit Hnew) as [fl Hdone].
      exists fl. by destruct Hdone.
  - destruct (recent_done w st) as [fl Hdone].
    exists fl. by destruct Hdone.
Qed.

Lemma index_upsert_last batch iv (idx : gmap string Vector) :
  index_upsert (batch ++ [iv]) idx !! iv.1 = Some iv.2.
Proof.
  unfold index_upsert. rewrite foldl_app. simpl. apply lookup_insert_eq.
Qed.

Lemma final_flush_nonempty st :
  vectors_batch st ≠ [] → final_flush st = write_batches st.
Proof. unfold final_flush. by destruct (vectors_batch st). Qed.

(** C3, amended: whatever the collection holds for an id, once a staged
    write for that id has been flushed the collection holds exactly one
    document for it, whose [type] is the mode of this latest ingestion and
    whose [ingested_at] is the clock value of this write; the index holds
    the new vector. *)
Theorem reingestion_overwrites (w : World) (st : State)
    (ty doc_id ttl cleaned auths url : string) (embedding : Vector)
    (Huniq : NoDup (ids (collection (stores st)))) :
  let st' := final_flush (stage w ty doc_id ttl cleaned auths url embedding st) in
  docs_with doc_id (collection (stores st'))
  = [{| _id := doc_id; title := Some ttl; summary := Some cleaned;
        authors := Some auths; pdf_url := Some url;
        ingested_at := now w (ticks st); type := Some ty |}] ∧
  NoDup (ids (collection (stores st'))) ∧
  index (stores st') !! doc_id = Some embedding.
Proof.
  simpl. unfold stage. cbv zeta. cbn [vectors_batch].
  set (op := {| filter_id := doc_id; set_title := ttl; set_summary := cleaned;
                set_authors := auths; set_pdf_url := url;
                set_ingested_at := now w (ticks st); set_type := ty |}).
  assert (docs_with doc_id
            (bulk_write (mongo_batch st ++ [op]) (collection (stores st)))
          = [inserted_doc op]) as Hdoc
    by (by apply (bulk_write_last _ op [])).
  pose proof (bulk_write_NoDup (mongo_batch st ++ [op]) _ Huniq) as Hnd.
  pose proof (index_upsert_last (vectors_batch st) (doc_id, embedding)
                (index (stores st))) as Hidx.
  case_bool_decide as Hreach.
  - unfold final_flush. simpl. done.
  - rewrite final_flush_nonempty; [done|]. simpl.
    by intros [_ ?]%app_nil.
Qed.

End IngestFacts.


(** ** Scenarios *)

Module Scenarios.
Import Store Env Str Discovery Ingest Query Retention.
Import StoreFacts IngestFacts RetentionFacts QueryFacts.

Definition empty_stores : Stores := {| collection := []; index := ∅ |}.

Definition a_paper : Paper := {|
  entry_id := "http://arxiv.org/abs/2301.00001v1";
  paper_title := "A Paper";
  paper_summary := "An abstract.";
  paper_authors := ["A. Author"; "B. Author"];
  paper_pdf_url := "http://arxiv.org/pdf/2301.00001v1"
|}.

(** First night: no curated list names the paper, the newest weekly window
    yields it. *)
Definition first_night : World := {|
  github_found_ids _ := None;
  scholar_api _ _ := Json None;
  list_of_set := elements;
  arxiv_lookup _ := None;
  arxiv_week weeks := if decide (weeks = 0) then [a_paper] else [];
  encode _ := Some [1%Q; 0%Q];
  now k := (100 + Z.of_nat k)%Z;
  index_query _ _ := None
|}.

(** A later night: a curated list links to the paper without a version, and
    the lookup of that id gives the paper, whose [entry_id] has one. *)
Definition later_night : World := {|
  github_found_ids url :=
    if decide (url = "https://raw.githubusercontent.com/keon/awesome-nlp/master/README.md")
    then Some ["2301.00001"] else None;
  scholar_api _ _ := Json None;
  list_of_set := elements;
  arxiv_lookup arxiv_id :=
    if decide (arxiv_id = "2301.00001") then Some a_paper else None;
  arxiv_week weeks := if decide (weeks = 0) then [a_paper] else [];
  encode _ := Some [1%Q; 0%Q];
  now k := (200 + Z.of_nat k)%Z;
  index_query _ _ := None
|}.

(** C3, as the claim states it, fails: the paper is first ingested in recent
    mode; on the later night the processed ids hold "2301.00001v1" but the
    candidate is "2301.00001", so classic mode ingests the paper again, and
    the one document of the id now has type classic. *)
Lemma reingestion_changes_type :
  let s1 := stores (run first_night empty_stores) in
  let s2 := stores (run later_night s1) in
  (ids (collection s1) = ["2301.00001v1"] ∧
   type <$> collection s1 = [Some "recent"] ∧
   ingested_at <$> collection s1 = [100%Z]) ∧
  (ids (collection s2) = ["2301.00001v1"] ∧
   type <$> collection s2 = [Some "classic"] ∧
   ingested_at <$> collection s2 = [200%Z]).
Proof. by vm_compute. Qed.

Definition one_recent_doc : State := {|
  stores := {| collection :=
                 [{| _id := "2301.00001v1"; title := Some "A Paper";
                     summary := Some "An abstract.";
                     authors := Some "A. Author, B. Author";
                     pdf_url := Some "http://arxiv.org/pdf/2301.00001v1";
                     ingested_at := 100; type := Some "recent" |}];
               index := {[ "2301.00001v1" := [1%Q; 0%Q] ]} |};
  processed_ids := {[ "2301.00001v1" ]};
  vectors_batch := [];
  mongo_batch := [];
  ingested := 0;
  ticks := 0;
  log := []
|}.

Lemma reingestion_overwrites_witness :
  NoDup (ids (collection (stores one_recent_doc))) ∧
  type <$> docs_with "2301.00001v1"
             (collection (stores
                (final_flush (classic_item later_night one_recent_doc
                                           "2301.00001"))))
  = [Some "classic"].
Proof.
  assert (NoDup (ids (collection (stores one_recent_doc)))) as Hnd
    by (apply NoDup_singleton).
  split; [exact Hnd|].
  pose proof (reingestion_overwrites later_night one_recent_doc "classic"
                "2301.00001v1" "A Paper" "An abstract."
                "A. Author, B. Author" "http://arxiv.org/pdf/2301.00001v1"
                [1%Q; 0%Q] Hnd) as [Hdoc _].
  change (classic_item later_night one_recent_doc "2301.00001")
    with (stage later_night "classic" "2301.00001v1" "A Paper" "An abstract."
            "A. Author, B. Author" "http://arxiv.org/pdf/2301.00001v1"
            [1%Q; 0%Q] one_recent_doc).
  cbv zeta in Hdoc. by rewrite Hdoc.
Defined.

Definition a_doc (i ty : string) (t : Z) : Doc := {|
  _id := i; title := None; summary := None; authors := None;
  pdf_url := None; ingested_at := t; type := Some ty
|}.

Definition doc_number (ty : string) (k : nat) : Doc :=
  a_doc (pretty k) ty (Z.of_nat k).

(** An old classic paper and two recent ones, over a cap of 2. *)
Definition small_corpus : Stores := {|
  collection := [a_doc "1" "classic" 1; a_doc "3" "recent" 3;
                 a_doc "2" "recent" 2];
  index := {[ "1" := [1%Q]; "2" := [2%Q]; "3" := [3%Q] ]}
|}.

Example cleanup_small_corpus :
  collection (cleanup_old_items small_corpus 2)
  = [a_doc "1" "classic" 1; a_doc "3" "recent" 3] ∧
  index (cleanup_old_items small_corpus 2)
  = {[ "1" := [1%Q]; "3" := [3%Q] ]}.
Proof. split; by vm_compute. Qed.

Lemma classic_never_selected_witness :
  NoDup (ids (collection small_corpus)) ∧
  a_doc "1" "classic" 1 ∈ collection (cleanup_old_items small_corpus 2).
Proof.
  assert (NoDup (ids (collection small_corpus))) as Hnd.
  { apply (bool_decide_unpack (NoDup (ids (collection small_corpus)))).
    by vm_compute. }
  split; [exact Hnd|].
  destruct (classic_never_selected small_corpus 2 Hnd) as (_ & Hkeep & _).
  apply Hkeep; [|done]. by left.
Defined.

(** 3,000 classic documents and 27,050 newer recent ones. *)
Definition big_corpus : Stores := {|
  collection := (doc_number "classic" <$> seq 0 3000)
                ++ (doc_number "recent" <$> seq 3000 (Z.to_nat 27050));
  index := ∅
|}.

Lemma big_corpus_ids :
  ids (collection big_corpus) = pretty <$> seq 0 (3000 + Z.to_nat 27050).
Proof.
  unfold ids, big_corpus, collection.
  rewrite seq_app, !fmap_app, <- !list_fmap_compose. done.
Qed.

Lemma cap_convergence_witness :
  NoDup (ids (collection big_corpus)) ∧
  count_documents (collection big_corpus) = 30050%Z ∧
  length (docs_to_delete (collection big_corpus) 30000) = 50 ∧
  count_documents (collection (cleanup_old_items big_corpus 30000))
    = 30000%Z.
Proof.
  assert (NoDup (ids (collection big_corpus))) as Hnd.
  { rewrite big_corpus_ids. apply NoDup_fmap_2; [apply _|apply NoDup_seq]. }
  assert (count_documents (collection big_corpus) = 30050%Z) as Hcount.
  { unfold count_documents, big_corpus, collection.
    rewrite length_app, !length_fmap, !length_seq. lia. }
  assert (count_documents
            (filter (λ d, type d = Some "classic") (collection big_corpus))
          = 3000%Z) as Hclassic.
  { unfold count_documents, big_corpus, collection.
    rewrite filter_app, filter_all, filter_none.
    - rewrite app_nil_r, length_fmap, length_seq. lia.
    - apply Forall_fmap, Forall_forall. by intros k _.
    - apply Forall_fmap, Forall_forall. by intros k _. }
  split; [exact Hnd|]. split; [exact Hcount|].
  destruct (cap_convergence big_corpus 30000 Hnd) as [_ Hscenario].
  destruct (Hscenario Hcount Hclassic eq_refl) as (H50 & _ & _ & _ & _ & H30000).
  split; [exact H50|exact H30000].
Defined.

(** Three queries: the first does not match the paper "X", the other two
    match it with different scores; the index also matches an id, "gone",
    that has no document. *)
Definition three_queries : World := {|
  github_found_ids _ := None;
  scholar_api _ _ := Json None;
  list_of_set := elements;
  arxiv_lookup _ := None;
  arxiv_week _ := [];
  encode text :=
    if decide (text = "transformers") then Some [1%Q]
    else if decide (text = "attention") then Some [2%Q]
    else Some [3%Q];
  now _ := 0%Z;
  index_query v _ :=
    match v with
    | [a] => if Qle_bool a 1 then Some [("X", 9 # 10); ("gone", 8 # 10)]
             else if Qle_bool a 2 then Some [("X", 5 # 10); ("Y", 7 # 10)]
             else Some [("Y", 3 # 10)]
    | _ => None
    end
|}.

Definition two_docs : list Doc :=
  [a_doc "Y" "recent" 2; a_doc "X" "classic" 1].

Example search_three_queries :
  (λ r, (id r, score r, res_type r))
    <$> perform_search three_queries two_docs
          ["cats"; "transformers"; " attention "]
  = [("X", 9 # 10, "classic"); ("Y", 3 # 10, "recent")].
Proof. by vm_compute. Qed.

Lemma first_query_wins_witness :
  query_matches three_queries "transformers"
    = Some [("X", 9 # 10); ("gone", 8 # 10)] ∧
  query_matches three_queries " attention "
    = Some [("X", 5 # 10); ("Y", 7 # 10)] ∧
  id_to_score [("X", 9 # 10); ("gone", 8 # 10)] !! "X" = Some (9 # 10) ∧
  ∀ r, r ∈ perform_search three_queries two_docs
             ["cats"; "transformers"; " attention "] →
       id r = "X" → score r = 9 # 10.
Proof.
  assert (query_matches three_queries "transformers"
          = Some [("X", 9 # 10); ("gone", 8 # 10)]) as Hq1 by (by vm_compute).
  assert (id_to_score [("X", 9 # 10); ("gone", 8 # 10)] !! "X"
          = Some (9 # 10)) as Hs1 by (by vm_compute).
  assert (∀ q m, q ∈ ["cats"] → query_matches three_queries q = Some m →
                 "X" ∉ m.*1) as Hpre.
  { intros q m ->%list_elem_of_singleton Hm. vm_compute in Hm.
    injection Hm as <-. simpl. by intros ?%list_elem_of_singleton. }
  split; [exact Hq1|]. split; [by vm_compute|]. split; [exact Hs1|].
  exact (proj1 (proj2 (first_query_wins three_queries two_docs ["cats"]
                         [" attention "] "transformers" _ "X" (9 # 10)
                         Hpre Hq1 Hs1))).
Defined.

(** A week of 201 new papers: one flush at the threshold, one at the end. *)
Definition many_papers : World := {|
  github_found_ids _ := None;
  scholar_api _ _ := Json None;
  list_of_set := elements;
  arxiv_lookup _ := None;
  arxiv_week weeks :=
    if decide (weeks = 0)
    then (λ k, {| entry_id := "http://arxiv.org/abs/" +:+ pretty k;
                  paper_title := "T"; paper_summary := "S";
                  paper_authors := []; paper_pdf_url := "" |}) <$> seq 0 201
    else [];
  encode _ := Some [];
  now k := Z.of_nat k;
  index_query _ _ := None
|}.

Definition fresh_state : State := {|
  stores := empty_stores; processed_ids := ∅; vectors_batch := [];
  mongo_batch := []; ingested := 0; ticks := 0; log := []
|}.

Example flushes_of_201_papers :
  (λ wr, match wr with
         | Upsert v => ("upsert", length v)
         | BulkWrite m => ("bulk_write", length m)
         end) <$> log (ingest_recent_papers many_papers fresh_state)
  = [("upsert", 200); ("bulk_write", 200); ("upsert", 1); ("bulk_write", 1)] ∧
  length (collection (stores (ingest_recent_papers many_papers fresh_state)))
  = 201.
Proof. split; by vm_compute. Qed.

End Scenarios.


(** * Further properties *)

(** ** Retention controller: what one run changes *)

Module RetentionMore.
Import Store Retention RetentionFacts.

(** The two stores hold the same ids. *)
Definition consistent (s : Stores) : Prop :=
  ∀ i, is_Some (index s !! i) ↔ i ∈ ids (collection s).

Lemma delete_many_nil c : delete_many [] c = c.
Proof.
  unfold delete_many. apply filter_all, Forall_forall.
  intros d _. apply not_elem_of_nil.
Qed.

Lemma cleanup_collection s max_items :
  collection (cleanup_old_items s max_items)
  = if decide (count_documents (collection s) > max_items)%Z
    then delete_many (ids (docs_to_delete (collection s) max_items))
                     (collection s)
    else collection s.
Proof.
  unfold cleanup_old_items.
  destruct (Z.gtb_spec (count_documents (collection s)) max_items) as [Hgt|Hle].
  - rewrite decide_True by lia.
    destruct (ids (docs_to_delete (collection s) max_items)) eqn:Hids;
      [by rewrite delete_many_nil|done].
  - by rewrite decide_False by lia.
Qed.

Lemma cleanup_index s max_items i :
  index (cleanup_old_items s max_items) !! i
  = if decide ((count_documents (collection s) > max_items)%Z ∧
               i ∈ ids (docs_to_delete (collection s) max_items))
    then None else index s !! i.
Proof.
  unfold cleanup_old_items.
  destruct (Z.gtb_spec (count_documents (collection s)) max_items) as [Hgt|Hle].
  - destruct (ids (docs_to_delete (collection s) max_items)) as [|j js] eqn:Hids.
    + rewrite decide_False; [done|]. intros [_ Hin]. by apply elem_of_nil in Hin.
    + cbn [index]. rewrite index_delete_batches, concat_batches by lia.
      rewrite lookup_index_delete.
      destruct (decide (i ∈ j :: js)).
      * rewrite decide_True; [done|]. split; [lia|done].
      * rewrite decide_False; [done|]. by intros [_ ?].
  - rewrite decide_False; [done|]. intros [? _]. lia.
Qed.

Lemma ids_delete_many sel c i :
  i ∈ ids (delete_many sel c) ↔ i ∈ ids c ∧ i ∉ sel.
Proof.
  unfold ids, delete_many. rewrite !list_elem_of_fmap. split.
  - intros (d & -> & Hd). apply list_elem_of_filter in Hd as [Hsel Hd].
    split; [by exists d|done].
  - intros [(d & -> & Hd) Hsel]. exists d. split; [done|].
    by apply list_elem_of_filter.
Qed.

Lemma cleanup_sublist s max_items :
  collection (cleanup_old_items s max_items) `sublist_of` collection s.
Proof. rewrite cleanup_collection. case_decide; [|done]. apply sublist_filter. Qed.

Lemma cleanup_NoDup s max_items :
  NoDup (ids (collection s)) →
  NoDup (ids (collection (cleanup_old_items s max_items))).
Proof.
  intros Hnd. apply (sublist_NoDup _ (ids (collection s))); [exact Hnd|].
  apply fmap_sublist, cleanup_sublist.
Qed.

Definition selected (s : Stores) (max_items : Z) (i : string) : Prop :=
  (count_documents (collection s) > max_items)%Z ∧
  i ∈ ids (docs_to_delete (collection s) max_items).

Lemma cleanup_ids s max_items i :
  i ∈ ids (collection (cleanup_old_items s max_items))
  ↔ i ∈ ids (collection s) ∧ ¬ selected s max_items i.
Proof.
  unfold selected. rewrite cleanup_collection. case_decide as Hgt.
  - rewrite ids_delete_many. naive_solver.
  - naive_solver.
Qed.

Lemma cleanup_dom s max_items i :
  is_Some (index (cleanup_old_items s max_items) !! i)
  ↔ is_Some (index s !! i) ∧ ¬ selected s max_items i.
Proof.
  unfold selected. rewrite cleanup_index. case_decide as Hgone.
  - split; [by intros [? ?]|by intros [_ ?]].
  - naive_solver.
Qed.

Lemma cleanup_consistent s max_items :
  consistent s → consistent (cleanup_old_items s max_items).
Proof. intros Hcons i. by rewrite cleanup_dom, cleanup_ids, (Hcons i). Qed.

(** X1. A run only removes: the collection afterwards is a sublist of the
    collection before, in the same order, ids stay unique, and the index
    afterwards is a submap of the index before. *)
Theorem cleanup_only_removes (s : Stores) (max_items : Z) :
  let s' := cleanup_old_items s max_items in
  collection s' `sublist_of` collection s ∧
  index s' ⊆ index s ∧
  (NoDup (ids (collection s)) → NoDup (ids (collection s'))).
Proof.
  simpl. split; [apply cleanup_sublist|]. split; [|apply cleanup_NoDup].
  apply map_subseteq_spec. intros i v. rewrite cleanup_index.
  by case_decide.
Qed.

(** X2. A run deletes the same ids from both stores: an id is in the
    collection afterwards exactly when it was there and is not selected, and
    likewise for the index, so stores that held the same ids still do. *)
Theorem cleanup_in_lockstep (s : Stores) (max_items : Z) :
  let s' := cleanup_old_items s max_items in
  (∀ i, i ∈ ids (collection s') ↔
        i ∈ ids (collection s) ∧ ¬ selected s max_items i) ∧
  (∀ i, is_Some (index s' !! i) ↔
        is_Some (index s !! i) ∧ ¬ selected s max_items i) ∧
  (consistent s → consistent s').
Proof.
  simpl. split; [apply cleanup_ids|]. split; [apply cleanup_dom|].
  apply cleanup_consistent.
Qed.

Lemma cleanup_leaves_no_excess s max_items :
  NoDup (ids (collection s)) →
  let s' := cleanup_old_items s max_items in
  (count_documents (collection s') ≤ max_items)%Z ∨
  find_type_ne_classic (collection s') = [].
Proof.
  intros Hnd. simpl.
  destruct (Z_gt_le_dec (count_documents (collection s)) max_items)
    as [Hover|Hle]; [|left; by rewrite cleanup_under].
  pose proof (length_cleanup s max_items Hnd Hover) as Hlen.
  pose proof (length_docs_to_delete _ _ Hover) as Hdel.
  destruct (cleanup_over s max_items Hnd Hover) as [Hperm _].
  destruct (decide (Z.to_nat (count_documents (collection s) - max_items)
                    ≤ length (find_type_ne_classic (collection s))))
    as [Hk|Hk].
  - left. unfold count_documents in *. lia.
  - right. apply Permutation_nil_r. unfold find_type_ne_classic at 1.
    rewrite Hperm. unfold kept.
    rewrite drop_ge
      by (unfold sort_ingested_at; rewrite sort_by_length; lia).
    simpl. rewrite filter_none; [done|].
    apply Forall_forall. intros d Hd.
    by apply list_elem_of_filter in Hd as [? _].
Qed.

(** X3. Idempotence: on a collection with unique ids a second run right
    after a run changes nothing. *)
Theorem cleanup_idempotent (s : Stores) (max_items : Z)
    (Huniq : NoDup (ids (collection s))) :
  cleanup_old_items (cleanup_old_items s max_items) max_items
  = cleanup_old_items s max_items.
Proof.
  destruct (cleanup_leaves_no_excess s max_items Huniq) as [Hle|Hnone].
  - by apply cleanup_under.
  - set (s' := cleanup_old_items s max_items) in *.
    unfold cleanup_old_items at 1. unfold docs_to_delete. rewrite Hnone.
    assert (ids (limit (count_documents (collection s') - max_items)
                       (sort_ingested_at [])) = []) as ->.
    { unfold limit, sort_ingested_at. simpl.
      destruct (_ =? _)%Z; [done|]. by rewrite take_nil. }
    by destruct (_ >? _)%Z.
Qed.

(** X4. Deleting from the index in batches: the batches are not empty, none
    holds more than the batch size, and in order they are the ids to
    delete. *)
Theorem batches_cover (size : nat) (l : list string) (Hsize : 0 < size) :
  concat (batches size l) = l ∧
  Forall (λ b, 0 < length b ≤ size) (batches size l).
Proof.
  split; [by apply concat_batches|].
  unfold batches, range0. rewrite <- list_fmap_compose.
  apply Forall_fmap, Forall_forall. intros k Hk. simpl.
  apply elem_of_seq in Hk as [_ Hk].
  rewrite length_take, length_drop.
  pose proof (Nat.div_mod_eq (length l + size - 1) size) as Hdm.
  pose proof (Nat.mod_upper_bound (length l + size - 1) size ltac:(lia)).
  assert (k * size < length l) by nia. lia.
Qed.

End RetentionMore.


(** ** Candidate discovery: bounds and provenance *)

Module DiscoveryMore.
Import Store Env Discovery DiscoveryFacts.

Lemma add_items_size n items : ∀ classic_ids : gset string,
  size classic_ids < n → size (add_items n items classic_ids) ≤ n.
Proof.
  induction items as [|[arxiv_id|] items IH]; intros classic_ids Hlt;
    cbn [add_items]; [lia| |by apply IH].
  case_bool_decide as Hnew; [|by apply IH].
  destruct Hnew as [_ Hnew].
  assert (size (classic_ids ∪ {[arxiv_id]}) = S (size classic_ids)) as Hsize.
  { rewrite size_union by set_solver. rewrite size_singleton. lia. }
  case_bool_decide; [lia|]. apply IH. lia.
Qed.

Lemma scholar_loop_size w n pages : ∀ offset (classic_ids : gset string),
  size classic_ids ≤ n →
  size (scholar_loop w n pages offset classic_ids).1 ≤ n.
Proof.
  induction pages as [|pages IH]; intros offset classic_ids Hle; [done|].
  rewrite scholar_loop_unfold. case_bool_decide as Hlt; [|done].
  destruct (retry_loop w offset max_retries 0) as [[[|item items]|] tr];
    [done| |done].
  cbv zeta. pose proof (add_items_size n (item :: items) classic_ids Hlt).
  case_bool_decide; [done|]. case_bool_decide; [done|].
  specialize (IH (offset + page_limit) (add_items n (item :: items) classic_ids)
                 ltac:(lia)).
  by destruct (scholar_loop w n pages _ _).
Qed.

(** X5. The ranked-API source returns at most [n] ids, without duplicates. *)
Theorem scholar_at_most_n (w : World) (n : nat) (Hord : set_order_ok w) :
  length (fetch_classic_ids_from_semantic_scholar w n) ≤ n ∧
  NoDup (fetch_classic_ids_from_semantic_scholar w n).
Proof.
  unfold fetch_classic_ids_from_semantic_scholar. rewrite (Hord _). split.
  - change (length (elements ?X)) with (size X).
    apply scholar_loop_size. rewrite size_empty. lia.
  - apply NoDup_elements.
Qed.

Lemma scholar_at_most_n_witness :
  set_order_ok example_world ∧
  length (fetch_classic_ids_from_semantic_scholar example_world 1) ≤ 1.
Proof.
  assert (set_order_ok example_world) as Hord by (by intros X).
  split; [exact Hord|].
  exact (proj1 (scholar_at_most_n example_world 1 Hord)).
Defined.

Lemma retry_loop_gets w offset left : ∀ retries e,
  e ∈ (retry_loop w offset left retries).2 →
  e = Get offset ∨ e = Sleep 60 ∨ e = Sleep 5.
Proof.
  induction left as [|left IH]; intros retries e He.
  - by apply elem_of_nil in He.
  - cbn [retry_loop] in He. specialize (IH (S retries) e).
    destruct (scholar_api w offset retries);
      [destruct (retry_loop w offset left (S retries)) as [d tr]..|];
      simpl in *; set_solver.
Qed.

Definition is_get (e : Event) : Prop := ∃ o, e = Get o.

#[global] Instance is_get_dec e : Decision (is_get e).
Proof.
  destruct e as [o|s]; [left; by exists o|right; by intros [? ?]].
Defined.

Lemma retry_loop_requests w offset left : ∀ retries,
  length (filter is_get (retry_loop w offset left retries).2) ≤ left.
Proof.
  induction left as [|left IH]; intros retries; [done|].
  cbn [retry_loop]. specialize (IH (S retries)).
  destruct (scholar_api w offset retries);
    [destruct (retry_loop w offset left (S retries)) as [d tr]..|];
    simpl in *; rewrite ?filter_cons; simpl;
    repeat case_decide; simpl; try done; try lia.
Qed.

Lemma scholar_loop_events w n pages : ∀ offset classic_ids e,
  offset ≤ 99 * 100 →
  e ∈ (scholar_loop w n pages offset classic_ids).2 →
  (∃ k, e = Get (offset + k * page_limit) ∧
        offset + k * page_limit ≤ 99 * 100) ∨
  e = Sleep 60 ∨ e = Sleep 5 ∨ e = Sleep 2.
Proof.
  induction pages as [|pages IH]; intros offset classic_ids e Hoff He.
  - by apply elem_of_nil in He.
  - rewrite scholar_loop_unfold in He.
    assert (e ∈ (retry_loop w offset max_retries 0).2 →
            (∃ k, e = Get (offset + k * page_limit) ∧
                  offset + k * page_limit ≤ 99 * 100) ∨
            e = Sleep 60 ∨ e = Sleep 5 ∨ e = Sleep 2) as Hpage.
    { intros [-> | [-> | ->]]%retry_loop_gets; auto.
      left. exists 0. split; [f_equal|]; lia. }
    revert He. case_bool_decide as Hlt; [|by intros ?%elem_of_nil].
    destruct (retry_loop w offset max_retries 0) as [[[|item items]|] tr];
      [done| |done].
    cbv zeta. case_bool_decide; [done|].
    case_bool_decide as Hcap; [done|].
    destruct (scholar_loop w n pages (offset + page_limit)
                (add_items n (item :: items) classic_ids))
      as [r tr'] eqn:Hrec.
    simpl. intros [He|He]%elem_of_app; [by apply Hpage|].
    apply elem_of_cons in He as [-> | He]; [by auto|].
    destruct (IH (offset + page_limit)
                 (add_items n (item :: items) classic_ids) e) as
      [(k & -> & Hk)|Hsleep]; [lia|by rewrite Hrec|..]; [|by auto].
    left. exists (S k). split; [f_equal|]; lia.
Qed.

Lemma scholar_loop_requests w n pages : ∀ offset classic_ids,
  length (filter is_get (scholar_loop w n pages offset classic_ids).2)
  ≤ 3 * pages.
Proof.
  induction pages as [|pages IH]; intros offset classic_ids; [simpl; lia|].
  rewrite scholar_loop_unfold.
  case_bool_decide as Hlt; [|simpl; lia].
  destruct (retry_loop w offset max_retries 0) as [data tr] eqn:Hretry.
  assert (length (filter is_get tr) ≤ 3) as Hpage.
  { pose proof (retry_loop_requests w offset max_retries 0) as H.
    by rewrite Hretry in H. }
  destruct data as [[|item items]|]; [simpl; lia| |simpl; lia].
  cbv zeta. case_bool_decide; [simpl; lia|].
  case_bool_decide as Hcap; [simpl; lia|].
  specialize (IH (offset + page_limit)
                 (add_items n (item :: items) classic_ids)).
  destruct (scholar_loop w n pages (offset + page_limit) _) as [r tr'].
  simpl in *. rewrite filter_app, filter_cons, length_app.
  rewrite decide_False by (by intros [? ?]). lia.
Qed.

(** X6. The ranked-API source is bounded: it requests only offsets that are
    multiples of the page size and at most 9900, makes at most 300 requests
    in a run, and sleeps only 60, 5 or 2 seconds at a time. *)
Theorem scholar_requests_bounded (w : World) (n : nat) :
  (∀ e, e ∈ (scholar_run w n).2 →
        (∃ k, e = Get (k * page_limit) ∧ k * page_limit ≤ 99 * 100) ∨
        e = Sleep 60 ∨ e = Sleep 5 ∨ e = Sleep 2) ∧
  length (filter is_get (scholar_run w n).2) ≤ 300.
Proof.
  unfold scholar_run. split.
  - intros e He. apply scholar_loop_events in He; [|lia]. exact He.
  - etrans; [apply scholar_loop_requests|]. unfold max_pages. lia.
Qed.

Lemma add_items_elem n items : ∀ (classic_ids : gset string) i,
  i ∈ add_items n items classic_ids →
  i ∈ classic_ids ∨ (i ≠ "" ∧ Some i ∈ items).
Proof.
  induction items as [|[arxiv_id|] items IH]; intros classic_ids i Hi;
    cbn [add_items] in Hi; [by left| |].
  - case_bool_decide as Hnew.
    + assert (i ∈ classic_ids ∪ {[arxiv_id]} →
              i ∈ classic_ids ∨ i ≠ "" ∧ Some i ∈ Some arxiv_id :: items)
        as Hadd.
      { intros [? | ->%elem_of_singleton]%elem_of_union; [by left|].
        right. split; [by destruct Hnew|by left]. }
      case_bool_decide; [by apply Hadd|].
      apply IH in Hi as [Hi|[? ?]]; [by apply Hadd|].
      right. split; [done|by right].
    + apply IH in Hi as [Hi|[? ?]]; [by left|].
      right. split; [done|by right].
  - apply IH in Hi as [Hi|[? ?]]; [by left|].
    right. split; [done|by right].
Qed.

Lemma retry_loop_data w offset left : ∀ retries items tr,
  retry_loop w offset left retries = (Some items, tr) →
  ∃ r, scholar_api w offset r = Json (Some items).
Proof.
  induction left as [|left IH]; intros retries items tr Hrun; [done|].
  cbn [retry_loop] in Hrun.
  destruct (scholar_api w offset retries) as [| |data] eqn:Hapi.
  - destruct (retry_loop w offset left (S retries)) as [d tr0] eqn:Hrec.
    injection Hrun as -> _. by eapply IH.
  - destruct (retry_loop w offset left (S retries)) as [d tr0] eqn:Hrec.
    injection Hrun as -> _. by eapply IH.
  - injection Hrun as -> _. by exists retries.
Qed.

Lemma scholar_loop_elem w n pages : ∀ offset (classic_ids : gset string) i,
  i ∈ (scholar_loop w n pages offset classic_ids).1 →
  i ∈ classic_ids ∨
  (i ≠ "" ∧ ∃ o r items,
             scholar_api w o r = Json (Some items) ∧ Some i ∈ items).
Proof.
  induction pages as [|pages IH]; intros offset classic_ids i Hi; [by left|].
  rewrite scholar_loop_unfold in Hi. revert Hi.
  case_bool_decide as Hlt; [|by left].
  destruct (retry_loop w offset max_retries 0) as [[[|item items]|] tr]
    eqn:Hretry; [by left| |by left].
  apply retry_loop_data in Hretry as [r Hr].
  assert (i ∈ add_items n (item :: items) classic_ids →
          i ∈ classic_ids ∨
          (i ≠ "" ∧ ∃ o r items,
                     scholar_api w o r = Json (Some items) ∧ Some i ∈ items))
    as Hpage.
  { intros [?|[? ?]]%add_items_elem; [by left|]. right. split; [done|].
    by exists offset, r, (item :: items). }
  cbv zeta. case_bool_decide; [done|]. case_bool_decide; [done|].
  destruct (scholar_loop w n pages (offset + page_limit) _) as [res tr']
    eqn:Hrec.
  simpl. intros Hi.
  destruct (IH (offset + page_limit)
               (add_items n (item :: items) classic_ids) i) as [Hin|Hnew];
    [by rewrite Hrec| |by right].
  by apply Hpage.
Qed.

(** X7. Every id of the ranked-API source is a non-empty ArXiv id of an item
    of a page the search API returned. *)
Theorem scholar_ids_from_api (w : World) (n : nat) (i : string)
    (Hi : i ∈ (scholar_run w n).1) :
  i ≠ "" ∧
  ∃ o r items, scholar_api w o r = Json (Some items) ∧ Some i ∈ items.
Proof.
  unfold scholar_run in Hi.
  apply scholar_loop_elem in Hi as [Hi|Hi]; [|done].
  by apply not_elem_of_empty in Hi.
Qed.

Lemma scholar_ids_from_api_witness :
  "2005.14165" ∈ (scholar_run example_world 2).1 ∧
  ∃ o r items,
    scholar_api example_world o r = Json (Some items) ∧
    Some "2005.14165" ∈ items.
Proof.
  assert ("2005.14165" ∈ (scholar_run example_world 2).1) as Hi.
  { apply (bool_decide_unpack
             ("2005.14165" ∈ (scholar_run example_world 2).1)).
    by vm_compute. }
  split; [exact Hi|].
  exact (proj2 (scholar_ids_from_api example_world 2 "2005.14165" Hi)).
Defined.

Lemma github_fold_elem w urls : ∀ (acc : gset string) i,
  i ∈ foldl (λ classic_ids url,
               match github_found_ids w url with
               | Some found_ids => classic_ids ∪ list_to_set found_ids
               | None => classic_ids
               end) acc urls
  ↔ i ∈ acc ∨ ∃ url found, url ∈ urls ∧ github_found_ids w url = Some found ∧
                           i ∈ found.
Proof.
  induction urls as [|url urls IH]; intros acc i; simpl.
  - split; [by left|]. intros [?|(? & ? & ?%elem_of_nil & _)]; done.
  - rewrite IH. split.
    + intros [Hi|(u & f & Hu & Hf & Hi)].
      * destruct (github_found_ids w url) as [found|] eqn:Hurl; [|by left].
        apply elem_of_union in Hi as [Hi|Hi]; [by left|].
        right. exists url, found. split; [by left|].
        split; [done|]. by apply elem_of_list_to_set in Hi.
      * right. exists u, f. split; [by right|done].
    + intros [Hi|(u & f & Hu & Hf & Hi)].
      * left. destruct (github_found_ids w url); [|done].
        apply elem_of_union. by left.
      * apply elem_of_cons in Hu as [->|Hu].
        -- left. rewrite Hf. apply elem_of_union. right.
           by apply elem_of_list_to_set.
        -- right. by exists u, f.
Qed.

(** X8. The GitHub source returns at most [n] ids without duplicates, each
    found in a curated list that could be fetched; a list that cannot be
    fetched is skipped, and when nothing can be fetched the result is empty.
    When the lists name at most [n] ids, every one of them is returned. *)
Theorem github_ids_from_lists (w : World) (n : nat) (Hord : set_order_ok w) :
  let found_in_lists i :=
    ∃ url found, url ∈ awesome_lists ∧
                 github_found_ids w url = Some found ∧ i ∈ found in
  length (fetch_classic_ids_from_github w n) ≤ n ∧
  NoDup (fetch_classic_ids_from_github w n) ∧
  (∀ i, i ∈ fetch_classic_ids_from_github w n → found_in_lists i) ∧
  (size (github_classic_ids w) ≤ n →
   ∀ i, found_in_lists i → i ∈ fetch_classic_ids_from_github w n) ∧
  ((∀ url, url ∈ awesome_lists → github_found_ids w url = None) →
   fetch_classic_ids_from_github w n = []).
Proof.
  simpl. unfold fetch_classic_ids_from_github.
  assert (∀ i, i ∈ list_of_set w (github_classic_ids w) ↔
               ∃ url found, url ∈ awesome_lists ∧
                            github_found_ids w url = Some found ∧ i ∈ found)
    as Hmem.
  { intros i. rewrite (Hord _), elem_of_elements.
    unfold github_classic_ids. rewrite github_fold_elem.
    split; [intros [?%not_elem_of_empty|?]; done|by right]. }
  split; [rewrite length_take; lia|]. split; [|split; [|split]].
  - apply (sublist_NoDup _ (list_of_set w (github_classic_ids w))).
    + rewrite (Hord _). apply NoDup_elements.
    + apply sublist_take.
  - intros i Hi%subseteq_take. by apply Hmem.
  - intros Hsize i Hi. rewrite take_ge; [by apply Hmem|].
    rewrite (Hord _). exact Hsize.
  - intros Hnone.
    destruct (take n (list_of_set w (github_classic_ids w))) as [|i l] eqn:Hl;
      [done|].
    assert (i ∈ take n (list_of_set w (github_classic_ids w))) as Hi
      by (rewrite Hl; by left).
    apply subseteq_take, Hmem in Hi as (url & found & Hurl & Hfound & _).
    by rewrite Hnone in Hfound.
Qed.

Lemma github_ids_from_lists_witness :
  set_order_ok example_world ∧
  NoDup (fetch_classic_ids_from_github example_world 4).
Proof.
  assert (set_order_ok example_world) as Hord by (by intros X).
  split; [exact Hord|].
  exact (proj1 (proj2 (github_ids_from_lists example_world 4 Hord))).
Defined.

End DiscoveryMore.


(** ** Ingestion pipeline: counters, fresh ids, types *)

Module IngestMore.
Import Store Env Str Discovery Ingest StoreFacts IngestFacts.

Lemma stage_ingested w ty doc_id ttl cleaned auths url embedding st :
  ingested (stage w ty doc_id ttl cleaned auths url embedding st)
  = S (ingested st).
Proof. unfold stage. simpl. by case_bool_decide. Qed.

Lemma final_flush_ingested st : ingested (final_flush st) = ingested st.
Proof. unfold final_flush. by destruct (vectors_batch st). Qed.

Lemma recent_week_ingested w results : ∀ st,
  ingested st < RECENT_ITEMS →
  ingested st ≤ ingested (recent_week w results st) ≤ RECENT_ITEMS.
Proof.
  induction results as [|paper rest IH]; intros st Hlt; [simpl; lia|].
  cbn [recent_week]. case_bool_decide; [by apply IH|].
  destruct (encode w _) as [embedding|]; [|lia].
  case_bool_decide as Hfull.
  - rewrite stage_ingested in *. lia.
  - rewrite stage_ingested in Hfull.
    match goal with |- _ ≤ ingested (recent_week w rest ?s) ≤ _ =>
      specialize (IH s) end.
    rewrite stage_ingested in IH. lia.
Qed.

Lemma recent_loop_ingested w windows : ∀ weeks st,
  ingested st ≤ RECENT_ITEMS →
  ingested st ≤ ingested (recent_loop w windows weeks st) ≤ RECENT_ITEMS.
Proof.
  induction windows as [|windows IH]; intros weeks st Hle; [simpl; lia|].
  cbn [recent_loop]. case_bool_decide as Hlt; [|lia].
  pose proof (recent_week_ingested w (arxiv_week w weeks) st Hlt).
  specialize (IH (S weeks) (recent_week w (arxiv_week w weeks) st)). lia.
Qed.

(** X9. Recent mode never ingests more than [RECENT_ITEMS] papers in a run. *)
Theorem recent_at_most_target (w : World) (st : State) :
  ingested (ingest_recent_papers w st) ≤ RECENT_ITEMS.
Proof.
  unfold ingest_recent_papers. rewrite final_flush_ingested.
  apply recent_loop_ingested. simpl. lia.
Qed.

(** The vectors a list of writes upserts, and the operations it
    bulk-writes. *)
Definition upserted (l : list Write) : list (string * Vector) :=
  l ≫= λ wr, match wr with Upsert v => v | BulkWrite _ => [] end.

Definition written (l : list Write) : list UpdateOne :=
  l ≫= λ wr, match wr with Upsert _ => [] | BulkWrite m => m end.

(** The ids staged since a mode started: those of the writes [L] sent since
    then and those still in the batch. *)
Definition staged_ids (L : list Write) (st : State) : list string :=
  (upserted L).*1 ++ (vectors_batch st).*1.

Definition staged_ops (L : list Write) (st : State) : list UpdateOne :=
  written L ++ mongo_batch st.

Lemma upserted_snoc L vb mb :
  upserted (L ++ [Upsert vb; BulkWrite mb]) = upserted L ++ vb.
Proof. unfold upserted. rewrite bind_app. simpl. by rewrite app_nil_r. Qed.

Lemma written_snoc L vb mb :
  written (L ++ [Upsert vb; BulkWrite mb]) = written L ++ mb.
Proof. unfold written. rewrite bind_app. simpl. by rewrite app_nil_r. Qed.

(** In recent mode no id is staged twice, and none that was processed
    before. *)
Record fresh_inv (st0 st : State) (L : list Write) : Prop := {
  fresh_log : log st = log st0 ++ L;
  fresh_nodup : NoDup (staged_ids L st);
  fresh_new : ∀ i, i ∈ staged_ids L st → i ∉ processed_ids st0;
  fresh_processed :
    processed_ids st = processed_ids st0 ∪ list_to_set (staged_ids L st)
}.

Lemma stage_staged w ty doc_id ttl cleaned auths url embedding st L :
  ∃ L', log (stage w ty doc_id ttl cleaned auths url embedding st)
        = log st ++ L' ∧
    staged_ids (L ++ L') (stage w ty doc_id ttl cleaned auths url embedding st)
    = staged_ids L st ++ [doc_id] ∧
    ∃ op, set_type op = ty ∧ filter_id op = doc_id ∧
      staged_ops (L ++ L')
        (stage w ty doc_id ttl cleaned auths url embedding st)
      = staged_ops L st ++ [op].
Proof.
  unfold stage, staged_ids, staged_ops. cbv zeta. cbn [vectors_batch].
  set (op := {| filter_id := doc_id; set_title := ttl |}).
  case_bool_decide.
  - eexists. split; [reflexivity|]. simpl.
    rewrite upserted_snoc, written_snoc, !fmap_app. simpl.
    rewrite !app_nil_r, <- !(assoc_L (++)). split; [done|].
    exists op. split; [done|]. split; [done|]. by rewrite (assoc_L (++)).
  - exists []. simpl. rewrite !app_nil_r, !fmap_app, !(assoc_L (++)).
    split; [done|]. split; [done|]. by exists op.
Qed.

Lemma stage_processed w ty doc_id ttl cleaned auths url embedding st :
  processed_ids (stage w ty doc_id ttl cleaned auths url embedding st)
  = processed_ids st ∪ {[doc_id]}.
Proof. unfold stage. simpl. by case_bool_decide. Qed.

Lemma stage_fresh w ty doc_id ttl cleaned auths url embedding st0 st L :
  fresh_inv st0 st L → doc_id ∉ processed_ids st →
  ∃ L', fresh_inv st0 (stage w ty doc_id ttl cleaned auths url embedding st) L'.
Proof.
  intros [Hlog Hnd Hnew Hproc] Hfresh.
  destruct (stage_staged w ty doc_id ttl cleaned auths url embedding st L)
    as (L' & Hlog' & Hids & _).
  rewrite Hproc in Hfresh. apply not_elem_of_union in Hfresh as [Hf0 Hf1].
  rewrite elem_of_list_to_set in Hf1.
  exists (L ++ L'). split.
  - by rewrite Hlog', Hlog, (assoc_L (++)).
  - rewrite Hids. apply NoDup_app. split; [done|].
    split; [|apply NoDup_singleton].
    by intros i Hi ->%list_elem_of_singleton.
  - rewrite Hids. intros i [Hi | ->%list_elem_of_singleton]%elem_of_app;
      [by apply Hnew|done].
  - rewrite stage_processed, Hids, Hproc, list_to_set_app_L. simpl.
    set_solver.
Qed.

(** A property kept by every staged write of a mode is kept by the loops of
    that mode. In recent mode the staged id is known not to be processed. *)
Section Lifting.
Context (w : World) (P : State → Prop).

Lemma classic_fold_preserves new_ids : ∀ st,
  (∀ st doc_id ttl cleaned auths url embedding,
     P st → P (stage w "classic" doc_id ttl cleaned auths url embedding st)) →
  P st → P (foldl (classic_item w) st new_ids).
Proof.
  intros st Hstage. revert st.
  induction new_ids as [|i new_ids IH]; intros st HP; [done|].
  simpl. apply IH. unfold classic_item.
  destruct (fetch_arxiv_metadata w i) as [meta|]; [|done].
  destruct (encode w _) as [embedding|]; [|done]. by apply Hstage.
Qed.

Hypothesis Hstage :
  ∀ st doc_id ttl cleaned auths url embedding,
    P st → doc_id ∉ processed_ids st →
    P (stage w "recent" doc_id ttl cleaned auths url embedding st).

Lemma recent_week_preserves results : ∀ st,
  P st → P (recent_week w results st).
Proof.
  induction results as [|paper rest IH]; intros st HP; [done|].
  cbn [recent_week]. case_bool_decide as Hseen; [by apply IH|].
  destruct (encode w _) as [embedding|]; [|done].
  case_bool_decide; [by apply Hstage|]. by apply IH, Hstage.
Qed.

Lemma recent_loop_preserves windows : ∀ weeks st,
  P st → P (recent_loop w windows weeks st).
Proof.
  induction windows as [|windows IH]; intros weeks st HP; [done|].
  cbn [recent_loop]. case_bool_decide; [|done].
  by apply IH, recent_week_preserves.
Qed.
End Lifting.

Lemma recent_loop_fresh w windows weeks st0 st L :
  fresh_inv st0 st L → ∃ L', fresh_inv st0 (recent_loop w windows weeks st) L'.
Proof.
  intros Hinv.
  apply (recent_loop_preserves w (λ st, ∃ L, fresh_inv st0 st L)); [|by exists L].
  intros st1 doc_id ttl cleaned auths url embedding [L1 H1] Hnew.
  by eapply stage_fresh.
Qed.

(** All operations staged by a mode carry the type of the mode. *)
Record typed_inv (ty : string) (st0 st : State) (L : list Write) : Prop := {
  typed_log : log st = log st0 ++ L;
  typed_ops : Forall (λ op, set_type op = ty) (staged_ops L st)
}.

Lemma stage_typed w ty doc_id ttl cleaned auths url embedding st0 st L :
  typed_inv ty st0 st L →
  ∃ L', typed_inv ty st0
          (stage w ty doc_id ttl cleaned auths url embedding st) L'.
Proof.
  intros [Hlog Hops].
  destruct (stage_staged w ty doc_id ttl cleaned auths url embedding st L)
    as (L' & Hlog' & _ & op & Hty & _ & Hstaged).
  exists (L ++ L'). split.
  - by rewrite Hlog', Hlog, (assoc_L (++)).
  - rewrite Hstaged. apply Forall_app. split; [done|].
    by apply Forall_singleton.
Qed.

Lemma final_flush_staged st L :
  aligned (vectors_batch st) (mongo_batch st) →
  ∃ L', log (final_flush st) = log st ++ L' ∧
        upserted (L ++ L') = upserted L ++ vectors_batch st ∧
        written (L ++ L') = written L ++ mongo_batch st ∧
        processed_ids (final_flush st) = processed_ids st.
Proof.
  intros Hal. unfold final_flush.
  destruct (vectors_batch st) as [|x vb] eqn:Hvb.
  - exists []. rewrite !app_nil_r. split; [done|]. split; [done|].
    split; [|done].
    unfold aligned in Hal. symmetry in Hal. apply fmap_nil_inv in Hal.
    by rewrite Hal, app_nil_r.
  - eexists. split; [reflexivity|].
    by rewrite upserted_snoc, written_snoc, Hvb.
Qed.

Lemma upserted_flush_writes fl : upserted (flush_writes fl) = flushed fl.
Proof.
  unfold upserted, flush_writes, flushed.
  induction fl as [|f fl IH]; [done|].
  simpl. f_equal. exact IH.
Qed.

Lemma written_flush_writes fl : written (flush_writes fl) = concat fl.*2.
Proof.
  unfold written, flush_writes.
  induction fl as [|f fl IH]; [done|].
  simpl. f_equal. exact IH.
Qed.

Lemma aligned_flushes fl :
  Forall (λ f : Flush, aligned f.1 f.2) fl →
  (flushed fl).*1 = filter_id <$> concat fl.*2.
Proof.
  unfold flushed. induction 1 as [|f fl Hf Hfl IH]; [done|].
  rewrite !fmap_cons. cbn [concat]. rewrite !fmap_app, IH.
  unfold aligned in Hf. by rewrite Hf.
Qed.

Lemma bulk_write_app ops1 ops2 c :
  bulk_write (ops1 ++ ops2) c = bulk_write ops2 (bulk_write ops1 c).
Proof. unfold bulk_write. by rewrite foldl_app. Qed.

Lemma index_upsert_app b1 b2 (idx : gmap string Vector) :
  index_upsert (b1 ++ b2) idx = index_upsert b2 (index_upsert b1 idx).
Proof. unfold index_upsert. by rewrite foldl_app. Qed.

(** The flushes of a run amount to one bulk write and one upsert. *)
Lemma apply_flushes fl : ∀ s,
  collection (foldl apply_flush s fl)
    = bulk_write (concat fl.*2) (collection s) ∧
  index (foldl apply_flush s fl) = index_upsert (flushed fl) (index s).
Proof.
  unfold flushed. induction fl as [|f fl IH]; intros s; [done|].
  simpl. destruct (IH (apply_flush s f)) as [-> ->].
  by rewrite bulk_write_app, index_upsert_app.
Qed.

Lemma update_one_fresh op c :
  filter_id op ∉ ids c → update_one op c = c ++ [inserted_doc op].
Proof.
  unfold ids. induction c as [|d c IH]; intros Hnew; [done|].
  rewrite fmap_cons in Hnew. apply not_elem_of_cons in Hnew as [Hne Hnew].
  cbn [update_one]. rewrite decide_False by done. simpl. f_equal. by apply IH.
Qed.

Lemma bulk_write_fresh ops : ∀ c,
  NoDup (filter_id <$> ops) →
  (∀ i, i ∈ filter_id <$> ops → i ∉ ids c) →
  bulk_write ops c = c ++ (inserted_doc <$> ops).
Proof.
  induction ops as [|op ops IH]; intros c Hnd Hnew.
  - by rewrite app_nil_r.
  - rewrite fmap_cons in Hnd. apply NoDup_cons in Hnd as [Hop Hnd].
    change (bulk_write (op :: ops) c) with (bulk_write ops (update_one op c)).
    rewrite update_one_fresh by (apply Hnew; rewrite fmap_cons; by left).
    rewrite IH; [by rewrite fmap_cons, <- (assoc_L (++))|done|].
    intros i Hi. unfold ids. rewrite fmap_app, elem_of_app. simpl.
    intros [Hin | ->%list_elem_of_singleton]; [|done].
    apply (Hnew i); [rewrite fmap_cons; by right|done].
Qed.

Lemma last_write_of ops i :
  i ∈ filter_id <$> ops →
  ∃ ops1 op ops2, ops = ops1 ++ op :: ops2 ∧ filter_id op = i ∧
                  Forall (λ o, filter_id o ≠ i) ops2.
Proof.
  induction ops as [|o ops IH]; intros Hi; [by apply elem_of_nil in Hi|].
  destruct (decide (i ∈ filter_id <$> ops)) as [Hin|Hnin].
  - destruct (IH Hin) as (ops1 & op & ops2 & -> & Hop & Hlater).
    by exists (o :: ops1), op, ops2.
  - rewrite fmap_cons in Hi. apply elem_of_cons in Hi as [->|Hi]; [|done].
    exists [], o, ops. split; [done|]. split; [done|].
    apply Forall_forall. intros o' Ho' Heq. apply Hnin. rewrite <- Heq.
    by apply list_elem_of_fmap_2.
Qed.

Lemma bulk_write_ids_iff ops i : ∀ c,
  i ∈ ids (bulk_write ops c) ↔ i ∈ ids c ∨ i ∈ filter_id <$> ops.
Proof.
  intros c. split; [|apply bulk_write_ids].
  revert c. unfold bulk_write.
  induction ops as [|op ops IH]; intros c Hi; [by left|].
  simpl in Hi. apply IH in Hi as [Hi|Hi].
  - rewrite update_one_ids in Hi. case_decide; [by left|].
    apply elem_of_app in Hi as [Hi | ->%list_elem_of_singleton]; [by left|].
    right. rewrite fmap_cons. by left.
  - right. rewrite fmap_cons. by right.
Qed.

Lemma index_upsert_dom_iff batch i : ∀ idx : gmap string Vector,
  is_Some (index_upsert batch idx !! i) ↔
  is_Some (idx !! i) ∨ i ∈ batch.*1.
Proof.
  intros idx. split; [|apply index_upsert_dom].
  revert idx. unfold index_upsert.
  induction batch as [|[j v] batch IH]; intros idx Hi; [by left|].
  simpl in Hi. apply IH in Hi as [Hi|Hi].
  - simpl in Hi. destruct (decide (j = i)) as [->|Hne].
    + right. rewrite fmap_cons. by left.
    + left. by rewrite lookup_insert_ne in Hi.
  - right. rewrite fmap_cons. by right.
Qed.

Lemma fresh_inv_init st : fresh_inv (mode_start st) (mode_start st) [].
Proof.
  split; simpl.
  - by rewrite app_nil_r.
  - constructor.
  - by intros i ?%elem_of_nil.
  - by rewrite union_empty_r_L.
Qed.

(** What a run of recent mode has sent when it ends. *)
Lemma recent_run_writes w st :
  ∃ fl, mode_done (mode_start st) (ingest_recent_papers w st) fl ∧
        NoDup (flushed fl).*1 ∧
        (∀ i, i ∈ (flushed fl).*1 → i ∉ processed_ids st) ∧
        Forall (λ op, set_type op = "recent") (concat fl.*2).
Proof.
  destruct (recent_done w st) as [fl Hdone]. exists fl. split; [done|].
  unfold ingest_recent_papers in *.
  set (st_e := recent_loop w max_windows 0 (mode_start st)) in *.
  destruct (recent_loop_inv w max_windows 0 (mode_start st) (mode_start st) [])
    as [fl0 Hinv]; [by apply mode_inv_init|].
  destruct (recent_loop_fresh w max_windows 0 _ _ _ (fresh_inv_init st))
    as [L [Hlog Hnd Hnew Hproc]].
  assert (∃ L2, typed_inv "recent" (mode_start st) st_e L2) as [L2 [Hlog2 Hty]].
  { apply (recent_loop_preserves w
             (λ st1, ∃ L, typed_inv "recent" (mode_start st) st1 L)).
    - intros st1 doc_id ttl cleaned auths url embedding [L1 H1] _.
      by eapply stage_typed.
    - exists []. split; simpl; [by rewrite app_nil_r|constructor]. }
  fold st_e in Hlog, Hinv.
  assert (L2 = L) as -> by (rewrite Hlog in Hlog2; by apply app_inv_head in Hlog2).
  destruct (final_flush_staged st_e L (inv_batch _ _ _ Hinv))
    as (L' & Hlog' & Hup & Hwr & _).
  assert (flush_writes fl = L ++ L') as Hfl.
  { pose proof (done_log _ _ _ Hdone) as Hd. simpl in Hd.
    rewrite Hlog', Hlog in Hd. simpl in Hd.
    rewrite <- (assoc_L (++)) in Hd. by apply app_inv_head in Hd. }
  rewrite <- upserted_flush_writes, <- written_flush_writes, Hfl, Hup, Hwr.
  unfold staged_ids, staged_ops in *. rewrite fmap_app. done.
Qed.

(** X10. Recent mode never stages an id twice in a run, and never an id that
    was processed before the run; the ids it records as processed are the
    ids it wrote. *)
Theorem recent_never_repeats (w : World) (st : State) :
  let st' := ingest_recent_papers w st in
  ∃ L, log st' = log st ++ L ∧
       NoDup (upserted L).*1 ∧
       (∀ i, i ∈ (upserted L).*1 → i ∉ processed_ids st) ∧
       processed_ids st' = processed_ids st ∪ list_to_set (upserted L).*1.
Proof.
  simpl. destruct (recent_run_writes w st) as (fl & Hdone & Hnd & Hnew & _).
  exists (flush_writes fl). rewrite upserted_flush_writes.
  split; [by destruct Hdone|]. split; [done|]. split; [done|].
  by destruct Hdone.
Qed.

(** X11. When the processed ids cover the collection, as they do in the job,
    recent mode only appends: the collection afterwards is the collection
    before followed by one new document of type recent per ingested paper,
    with distinct ids. *)
Theorem recent_only_appends (w : World) (st : State)
    (Hcover : ∀ i, i ∈ ids (collection (stores st)) → i ∈ processed_ids st) :
  let st' := ingest_recent_papers w st in
  ∃ ops, collection (stores st')
         = collection (stores st) ++ (inserted_doc <$> ops) ∧
         length ops = ingested st' ∧
         Forall (λ op, set_type op = "recent") ops ∧
         NoDup (filter_id <$> ops).
Proof.
  simpl. destruct (recent_run_writes w st) as (fl & Hdone & Hnd & Hnew & Hty).
  destruct Hdone as [_ Hstores _ _ Hal _ Hcount _]. simpl in Hstores.
  pose proof (aligned_flushes fl Hal) as Hids.
  exists (concat fl.*2). rewrite Hstores.
  destruct (apply_flushes fl (stores st)) as [-> _].
  rewrite <- Hids. split; [|split; [|done]].
  - apply bulk_write_fresh; rewrite <- Hids; [done|].
    intros i Hi Hin. by apply (Hnew i), Hcover.
  - rewrite Hcount, <- (length_fmap filter_id), <- Hids. by rewrite length_fmap.
Qed.

Lemma classic_run_typed w st limit :
  new_classic_ids w (processed_ids st) limit ≠ [] →
  ∃ fl, mode_done (mode_start st) (ingest_classic_papers w st limit) fl ∧
        Forall (λ op, set_type op = "classic") (concat fl.*2).
Proof.
  intros Hnew. destruct (classic_done w st limit Hnew) as [fl Hdone].
  exists fl. split; [done|].
  unfold ingest_classic_papers in *.
  destruct (new_classic_ids w (processed_ids st) limit) as [|i new_ids];
    [done|].
  set (st_e := foldl (classic_item w) (mode_start st) (i :: new_ids)) in *.
  destruct (classic_fold_inv w (i :: new_ids) (mode_start st) (mode_start st) [])
    as [fl0 Hinv]; [by apply mode_inv_init|].
  assert (∃ L, typed_inv "classic" (mode_start st) st_e L) as [L [Hlog Hty]].
  { apply (classic_fold_preserves w
             (λ st1, ∃ L, typed_inv "classic" (mode_start st) st1 L)).
    - intros st1 doc_id ttl cleaned auths url embedding [L1 H1].
      by eapply stage_typed.
    - exists []. split; simpl; [by rewrite app_nil_r|constructor]. }
  fold st_e in Hinv.
  destruct (final_flush_staged st_e L (inv_batch _ _ _ Hinv))
    as (L' & Hlog' & _ & Hwr & _).
  assert (flush_writes fl = L ++ L') as Hfl.
  { pose proof (done_log _ _ _ Hdone) as Hd. simpl in Hd.
    rewrite Hlog', Hlog in Hd. simpl in Hd.
    rewrite <- (assoc_L (++)) in Hd. by apply app_inv_head in Hd. }
  by rewrite <- written_flush_writes, Hfl, Hwr.
Qed.

Lemma mode_docs_typed ty st st' fl :
  mode_done (mode_start st) st' fl →
  Forall (λ op, set_type op = ty) (concat fl.*2) →
  NoDup (ids (collection (stores st))) →
  ∀ i, i ∈ processed_ids st' → i ∉ processed_ids st →
       ∃ d, docs_with i (collection (stores st')) = [d] ∧ type d = Some ty.
Proof.
  intros [_ Hstores _ _ Hal _ _ Hproc] Hty Hnd i Hi Hnew.
  simpl in Hstores, Hproc. rewrite Hproc in Hi.
  apply elem_of_union in Hi as [Hi|Hi]; [done|].
  rewrite elem_of_list_to_set, (aligned_flushes fl Hal) in Hi.
  destruct (last_write_of _ _ Hi) as (ops1 & op & ops2 & Hops & <- & Hlater).
  rewrite Hstores. destruct (apply_flushes fl (stores st)) as [-> _].
  rewrite Hops in *. exists (inserted_doc op). split.
  - by apply bulk_write_last.
  - simpl. f_equal. rewrite Forall_app, Forall_cons in Hty. by destruct Hty as (_ & ? & _).
Qed.

(** X12. In a collection with unique ids, every id a run of classic mode
    newly records as processed has exactly one document afterwards and its
    type is classic; likewise recent for recent mode. *)
Theorem ingested_docs_carry_mode (w : World) (st : State) (limit : nat)
    (Huniq : NoDup (ids (collection (stores st)))) :
  (∀ i, i ∈ processed_ids (ingest_classic_papers w st limit) →
        i ∉ processed_ids st →
        ∃ d, docs_with i (collection (stores (ingest_classic_papers w st limit)))
             = [d] ∧ type d = Some "classic") ∧
  (∀ i, i ∈ processed_ids (ingest_recent_papers w st) →
        i ∉ processed_ids st →
        ∃ d, docs_with i (collection (stores (ingest_recent_papers w st)))
             = [d] ∧ type d = Some "recent").
Proof.
  split.
  - destruct (decide (new_classic_ids w (processed_ids st) limit = []))
      as [Hnil|Hnew].
    + rewrite classic_nothing_new by done. by intros i ? ?.
    + destruct (classic_run_typed w st limit Hnew) as (fl & Hdone & Hty).
      by eapply mode_docs_typed.
  - destruct (recent_run_writes w st) as (fl & Hdone & _ & _ & Hty).
    by eapply mode_docs_typed.
Qed.

Import Retention RetentionFacts RetentionMore.

Lemma flushes_keep_sound fl s :
  Forall (λ f : Flush, aligned f.1 f.2) fl →
  NoDup (ids (collection s)) → consistent s →
  NoDup (ids (collection (foldl apply_flush s fl))) ∧
  consistent (foldl apply_flush s fl).
Proof.
  intros Hal Hnd Hcons. destruct (apply_flushes fl s) as [Hcol Hidx].
  split.
  - rewrite Hcol. by apply bulk_write_NoDup.
  - intros i. rewrite Hcol, Hidx, index_upsert_dom_iff, bulk_write_ids_iff.
    by rewrite (Hcons i), (aligned_flushes fl Hal).
Qed.

Lemma modes_keep_sound w st limit :
  NoDup (ids (collection (stores st))) → consistent (stores st) →
  (NoDup (ids (collection (stores (ingest_classic_papers w st limit)))) ∧
   consistent (stores (ingest_classic_papers w st limit))) ∧
  (NoDup (ids (collection (stores (ingest_recent_papers w st)))) ∧
   consistent (stores (ingest_recent_papers w st))).
Proof.
  intros Hnd Hcons. split.
  - destruct (decide (new_classic_ids w (processed_ids st) limit = []))
      as [Hnil|Hnew]; [by rewrite classic_nothing_new|].
    destruct (classic_done w st limit Hnew) as [fl [_ Hstores _ _ Hal _ _ _]].
    rewrite Hstores. by apply flushes_keep_sound.
  - destruct (recent_done w st) as [fl [_ Hstores _ _ Hal _ _ _]].
    rewrite Hstores. by apply flushes_keep_sound.
Qed.

(** X13. The whole job keeps the stores sound: from stores with unique ids
    that hold the same ids, the job ends with stores with unique ids that
    hold the same ids, and with at most [MAX_ITEMS] documents or no
    non-classic document left. *)
Theorem run_keeps_stores_sound (w : World) (s : Stores)
    (Huniq : NoDup (ids (collection s))) (Hcons : consistent s) :
  let s' := stores (run w s) in
  NoDup (ids (collection s')) ∧ consistent s' ∧
  ((count_documents (collection s') ≤ MAX_ITEMS)%Z ∨
   find_type_ne_classic (collection s') = []).
Proof.
  unfold run. cbn [stores].
  set (s1 := cleanup_old_items s MAX_ITEMS).
  set (st1 := {| stores := s1 |}).
  assert (NoDup (ids (collection (stores st1))) ∧ consistent (stores st1))
    as [Hnd1 Hcons1].
  { split; [by apply cleanup_NoDup|by apply cleanup_consistent]. }
  destruct (modes_keep_sound w st1 CLASSIC_ITEMS Hnd1 Hcons1)
    as [[Hnd2 Hcons2] _].
  set (st2 := ingest_classic_papers w st1 CLASSIC_ITEMS) in *.
  destruct (modes_keep_sound w st2 0 Hnd2 Hcons2) as [_ [Hnd3 Hcons3]].
  split; [by apply cleanup_NoDup|]. split; [by apply cleanup_consistent|].
  by apply cleanup_leaves_no_excess.
Qed.

End IngestMore.


(** ** Query engine: distinct ids, skipped queries, scores *)

Section SortSorted.
Context {A : Type} (leb : A → A → bool).

(** The stable sort leaves a sorted list as it is. *)
Lemma sort_by_sorted_id l :
  StronglySorted (λ a b, leb a b = true) l → sort_by leb l = l.
Proof.
  induction 1 as [|x l Hl IH Hx]; [done|].
  simpl. fold (sort_by leb l). rewrite IH.
  destruct l as [|y l]; [done|]. simpl.
  apply Forall_cons in Hx as [-> _]. done.
Qed.
End SortSorted.

Module QueryMore.
Import Store Env Query QueryFacts.

Lemma merged_wf w c queries :
  NoDup (id <$> merged w c queries).
Proof.
  unfold merged. apply wf_nodup, fold_search_one_wf, acc_wf_empty.
Qed.

(** X14. No two returned entries carry the same id. *)
Theorem results_distinct (w : World) (c : list Doc) (queries : list string) :
  NoDup (id <$> perform_search w c queries).
Proof.
  unfold perform_search.
  apply (sublist_NoDup _ (id <$> sort_by_score (merged w c queries))).
  - rewrite sort_by_score_perm. apply merged_wf.
  - apply fmap_sublist, sublist_take.
Qed.

Lemma search_one_skip w c acc q :
  query_matches w q = None ∨ query_matches w q = Some [] →
  search_one w c acc q = acc.
Proof. unfold search_one. by intros [-> | ->]. Qed.

(** X15. A query whose embedding or index lookup raises, or that has no
    match, changes nothing: the result is the result without that query. No
    query gives no result. *)
Theorem failed_query_skipped (w : World) (c : list Doc)
    (pre post : list string) (q : string)
    (Hq : query_matches w q = None ∨ query_matches w q = Some []) :
  perform_search w c (pre ++ q :: post) = perform_search w c (pre ++ post) ∧
  perform_search w c [] = [].
Proof.
  split; [|done]. unfold perform_search, merged.
  rewrite !foldl_app. simpl. by rewrite search_one_skip.
Qed.

Lemma id_to_score_elem matches i s :
  id_to_score matches !! i = Some s → (i, s) ∈ matches.
Proof.
  unfold id_to_score.
  assert (∀ m : gmap string Q,
    foldl (λ m res, <[res.1 := res.2]> m) m matches !! i = Some s →
    m !! i = Some s ∨ (i, s) ∈ matches) as Hgen.
  { induction matches as [|[j q] matches IH]; intros m Hm; [by left|].
    simpl in Hm. apply IH in Hm as [Hm|Hm]; [|right; by right].
    simpl in Hm. destruct (decide (j = i)) as [->|Hne].
    - rewrite lookup_insert_eq in Hm. injection Hm as ->. right. by left.
    - rewrite lookup_insert_ne in Hm by done. by left. }
  intros [Habs|?]%Hgen; [|done]. by rewrite lookup_empty in Habs.
Qed.

Lemma id_to_score_some matches i :
  i ∈ matches.*1 → is_Some (id_to_score matches !! i).
Proof.
  unfold id_to_score.
  assert (∀ m : gmap string Q,
    is_Some (m !! i) ∨ i ∈ matches.*1 →
    is_Some (foldl (λ m res, <[res.1 := res.2]> m) m matches !! i)) as Hgen.
  { induction matches as [|[j q] matches IH]; intros m [Hm|Hm].
    - done.
    - by apply elem_of_nil in Hm.
    - simpl. apply IH. left. destruct (decide (j = i)) as [->|Hne].
      + rewrite lookup_insert_eq. eauto.
      + by rewrite lookup_insert_ne.
    - simpl. rewrite fmap_cons in Hm. apply elem_of_cons in Hm as [->|Hm].
      + apply IH. left. simpl. rewrite lookup_insert_eq. eauto.
      + apply IH. by right. }
  intros Hi. apply Hgen. by right.
Qed.

(** An entry whose score is one the index gave for its id in some query. *)
Definition scored_by (w : World) (queries : list string) (r : Result) : Prop :=
  ∃ q matches, q ∈ queries ∧ query_matches w q = Some matches ∧
               (id r, score r) ∈ matches.

Lemma fold_add_meta_scored w queries q matches metas : ∀ acc,
  q ∈ queries → query_matches w q = Some matches →
  Forall (λ meta, _id meta ∈ matches.*1) metas →
  Forall (scored_by w queries) (all_results acc) →
  Forall (scored_by w queries)
         (all_results (foldl (add_meta (id_to_score matches)) acc metas)).
Proof.
  intros acc Hq Hm Hmetas. revert acc.
  induction Hmetas as [|meta metas Hmeta _ IH]; intros acc Hacc; [done|].
  simpl. apply IH. unfold add_meta. case_bool_decide; [|done]. simpl.
  apply Forall_app. split; [done|]. apply Forall_singleton.
  exists q, matches. split; [done|]. split; [done|]. simpl.
  destruct (id_to_score_some matches _ Hmeta) as [s Hs]. rewrite Hs. simpl.
  by apply id_to_score_elem.
Qed.

Lemma merged_scored w c queries :
  Forall (scored_by w queries) (merged w c queries).
Proof.
  unfold merged.
  assert (∀ qs acc, qs ⊆ queries →
            Forall (scored_by w queries) (all_results acc) →
            Forall (scored_by w queries)
                   (all_results (foldl (search_one w c) acc qs))) as Hgen.
  { induction qs as [|q qs IH]; intros acc Hsub Hacc; [done|].
    simpl. apply IH; [set_solver|]. unfold search_one.
    destruct (query_matches w q) as [matches|] eqn:Hm; [|done].
    destruct (matches.*1) as [|j js] eqn:Hids; [done|].
    rewrite <- Hids.
    apply (fold_add_meta_scored w queries q matches); [set_solver|done| |done].
    apply Forall_forall. intros meta Hmeta. unfold find_id_in in Hmeta.
    by apply list_elem_of_filter in Hmeta as [? _]. }
  apply Hgen; [done|]. simpl. constructor.
Qed.

(** X16. The score of a returned entry is a score the index gave for that
    id in one of the queries: the default score 0 is never used. *)
Theorem scores_from_index (w : World) (c : list Doc) (queries : list string)
    (r : Result) (Hr : r ∈ perform_search w c queries) :
  ∃ q matches, q ∈ queries ∧ query_matches w q = Some matches ∧
               (id r, score r) ∈ matches.
Proof.
  apply perform_search_subseteq in Hr.
  pose proof (merged_scored w c queries) as H.
  rewrite Forall_forall in H. by apply H.
Qed.

Lemma sort_by_score_leb_sorted l :
  StronglySorted (λ a b, Qle_bool (score b) (score a) = true)
                 (sort_by_score l).
Proof.
  apply sort_by_sorted.
  - intros a b. rewrite !Qle_bool_iff.
    destruct (Qlt_le_dec (score a) (score b)) as [Hlt|Hle]; [|by left].
    right. by apply Qlt_le_weak.
  - intros a b d. rewrite !Qle_bool_iff. intros H1 H2.
    by apply Qle_trans with (score b).
Qed.

(** X17. Truncation keeps the best: an entry of the merged results that is
    not returned has a score no higher than any returned entry, and when
    the merged results are at most 25 all of them are returned. *)
Theorem best_25_returned (w : World) (c : list Doc) (queries : list string) :
  (∀ r r', r ∈ perform_search w c queries → r' ∈ merged w c queries →
           r' ∉ perform_search w c queries → (score r' <= score r)%Q) ∧
  (length (merged w c queries) ≤ 25 →
   perform_search w c queries ≡ₚ merged w c queries).
Proof.
  unfold perform_search. split.
  - intros r r' Hr Hr' Hout.
    pose proof (sort_by_score_sorted (merged w c queries)) as Hsorted.
    rewrite <- (take_drop 25) in Hsorted.
    apply (StronglySorted_app_1_elem_of _ _ _ r r') in Hsorted; [done|done|].
    rewrite <- (sort_by_score_perm (merged w c queries)) in Hr'.
    rewrite <- (take_drop 25 (sort_by_score _)) in Hr'.
    by apply elem_of_app in Hr' as [?|?].
  - intros Hlen. rewrite take_ge; [apply sort_by_score_perm|].
    unfold sort_by_score. by rewrite sort_by_length.
Qed.

(** X18. Sorting the returned list by score again, as the page does before
    display, leaves it as it is. *)
Theorem sorting_again_is_identity (w : World) (c : list Doc)
    (queries : list string) :
  sort_by_score (perform_search w c queries) = perform_search w c queries.
Proof.
  unfold perform_search. apply sort_by_sorted_id.
  pose proof (sort_by_score_leb_sorted (merged w c queries)) as Hsorted.
  rewrite <- (take_drop 25) in Hsorted.
  by apply StronglySorted_app_1_l in Hsorted.
Qed.

End QueryMore.


(** ** String helpers *)

Module StrMore.
Import Str.

Fixpoint contains (c : ascii) (s : string) : bool :=
  match s with
  | EmptyString => false
  | String d s' => Ascii.eqb d c || contains c s'
  end.

Lemma append_cons c a b : String c a +:+ b = String c (a +:+ b).
Proof. reflexivity. Qed.

Lemma append_nil b : "" +:+ b = b.
Proof. reflexivity. Qed.

Lemma append_assoc a b c : a +:+ b +:+ c = (a +:+ b) +:+ c.
Proof.
  induction a as [|d a IH]; [done|]. by rewrite !append_cons, IH.
Qed.

Lemma contains_app c a b :
  contains c (a +:+ b) = contains c a || contains c b.
Proof.
  induction a as [|d a IH]; [done|]. simpl. rewrite IH. by rewrite orb_assoc.
Qed.

(** X19. Cleaning a summary keeps its length, leaves no newline, changes
    nothing in a summary without newline, and cleaning twice is cleaning
    once. *)
Theorem replace_newlines_clean (s : string) :
  String.length (replace_newlines s) = String.length s ∧
  contains "010" (replace_newlines s) = false ∧
  (contains "010" s = false → replace_newlines s = s) ∧
  replace_newlines (replace_newlines s) = replace_newlines s.
Proof.
  assert (contains "010" (replace_newlines s) = false) as Hclean.
  { induction s as [|c s IH]; [done|]. simpl. rewrite IH, orb_false_r.
    destruct (Ascii.eqb_spec c "010") as [->|Hne]; [done|].
    by apply Ascii.eqb_neq. }
  assert (∀ t, contains "010" t = false → replace_newlines t = t) as Hid.
  { induction t as [|c t IH]; [done|]. simpl.
    intros [Hc Ht]%orb_false_iff. rewrite Hc. f_equal. by apply IH. }
  split; [|split; [done|split; [apply Hid|by apply Hid]]].
  clear. induction s as [|c s IH]; [done|]. simpl. by rewrite IH.
Qed.

Lemma after_last_slash_none s :
  after_last_slash s = None ↔ contains "/" s = false.
Proof.
  induction s as [|c s IH]; [done|]. simpl.
  destruct (after_last_slash s) as [r|].
  - split; [done|]. intros [_ Hs]%orb_false_iff. by apply IH in Hs.
  - destruct (Ascii.eqb c "/"); [done|]. simpl. by rewrite <- IH.
Qed.

Lemma after_last_slash_some s r :
  after_last_slash s = Some r →
  contains "/" r = false ∧ ∃ p, s = p +:+ "/" +:+ r.
Proof.
  revert r. induction s as [|c s IH]; intros r Hr; [done|].
  simpl in Hr. destruct (after_last_slash s) as [r'|] eqn:Hs.
  - injection Hr as <-. destruct (IH r' eq_refl) as [Hno [p ->]].
    split; [done|]. by exists (String c p).
  - destruct (Ascii.eqb_spec c "/") as [->|Hne]; [|done].
    injection Hr as <-. split; [by apply after_last_slash_none|].
    by exists "".
Qed.

Lemma after_last_slash_app p x :
  contains "/" x = false → after_last_slash (p +:+ "/" +:+ x) = Some x.
Proof.
  intros Hx. apply after_last_slash_none in Hx.
  induction p as [|c p IH].
  - change (after_last_slash (String "/" x) = Some x).
    cbn [after_last_slash]. by rewrite Hx.
  - change (after_last_slash (String c (p +:+ "/" +:+ x)) = Some x).
    cbn [after_last_slash]. by rewrite IH.
Qed.

(** X20. The id taken from an entry id has no slash and is what follows the
    last slash of the entry id; an entry id without slash is taken whole. *)
Theorem last_segment_spec (s : string) :
  contains "/" (last_segment s) = false ∧
  (∃ p, s = p +:+ last_segment s) ∧
  (contains "/" s = false → last_segment s = s) ∧
  (∀ p x, contains "/" x = false → last_segment (p +:+ "/" +:+ x) = x).
Proof.
  unfold last_segment. split; [|split; [|split]].
  - destruct (after_last_slash s) as [r|] eqn:Hs; simpl.
    + by apply after_last_slash_some in Hs as [? _].
    + by apply after_last_slash_none.
  - destruct (after_last_slash s) as [r|] eqn:Hs; simpl.
    + apply after_last_slash_some in Hs as [_ [p ->]].
      exists (p +:+ "/"). apply append_assoc.
    + by exists "".
  - intros Hs. by apply after_last_slash_none in Hs as ->.
  - intros p x Hx. by rewrite after_last_slash_app.
Qed.

Definition starts_clean (s : string) : Prop :=
  match s with
  | EmptyString => True
  | String c _ => is_space c = false
  end.

Fixpoint last_char (s : string) : option ascii :=
  match s with
  | EmptyString => None
  | String c s' =>
      match last_char s' with Some d => Some d | None => Some c end
  end.

Definition ends_clean (s : string) : Prop :=
  match last_char s with
  | None => True
  | Some c => is_space c = false
  end.

Lemma last_char_None s : last_char s = None ↔ s = "".
Proof. destruct s as [|c s]; [done|]. simpl. by destruct (last_char s). Qed.

Lemma lstrip_clean s : starts_clean (lstrip s).
Proof.
  induction s as [|c s IH]; [done|]. simpl.
  by destruct (is_space c) eqn:Hc.
Qed.

Lemma lstrip_id s : starts_clean s → lstrip s = s.
Proof. destruct s as [|c s]; [done|]. simpl. by intros ->. Qed.

Lemma rstrip_cons c s :
  rstrip (String c s)
  = if decide (rstrip s = "") then
      if is_space c then "" else String c ""
    else String c (rstrip s).
Proof. simpl. by destruct (rstrip s). Qed.

Lemma rstrip_starts s : starts_clean s → starts_clean (rstrip s).
Proof.
  destruct s as [|c s]; [done|]. rewrite rstrip_cons. simpl. intros Hc.
  case_decide; [by rewrite Hc|done].
Qed.

Lemma rstrip_ends s : ends_clean (rstrip s).
Proof.
  unfold ends_clean. induction s as [|c s IH]; [done|].
  rewrite rstrip_cons. case_decide as Hr.
  - by destruct (is_space c) eqn:Hc.
  - simpl. destruct (last_char (rstrip s)) eqn:Hl; [done|].
    by apply last_char_None in Hl.
Qed.

Lemma rstrip_id s : ends_clean s → rstrip s = s.
Proof.
  unfold ends_clean. induction s as [|c s IH]; [done|].
  rewrite rstrip_cons. simpl.
  destruct (last_char s) as [d|] eqn:Hl.
  - intros Hd. rewrite IH by done.
    rewrite decide_False; [done|]. intros ->. done.
  - apply last_char_None in Hl as ->. simpl. by intros ->.
Qed.

Lemma lstrip_contains c s :
  contains c (lstrip s) = true → contains c s = true.
Proof.
  induction s as [|d s IH]; [done|]. simpl.
  destruct (is_space d); [|done]. intros ->%IH. by rewrite orb_true_r.
Qed.

Lemma rstrip_contains c s :
  contains c (rstrip s) = true → contains c s = true.
Proof.
  induction s as [|d s IH]; [done|]. rewrite rstrip_cons.
  case_decide as Hr.
  - destruct (is_space d); [done|]. simpl. rewrite orb_false_r.
    intros ->. done.
  - simpl. intros [-> | ->%IH]%orb_true_iff; [done|]. by rewrite orb_true_r.
Qed.

Lemma strip_contains c s :
  contains c (strip s) = true → contains c s = true.
Proof. intros Hc. by apply lstrip_contains, rstrip_contains. Qed.

Lemma strip_idem s : strip (strip s) = strip s.
Proof.
  unfold strip. rewrite (lstrip_id (rstrip (lstrip s))).
  - apply rstrip_id, rstrip_ends.
  - apply rstrip_starts, lstrip_clean.
Qed.


End StrMore.


(** ** The search page: [app.py], lines 107-137 *)

Module App.
Import Store Env Str Query.

(** [s.split(sep)] for a separator of one character. *)
Fixpoint split (sep : ascii) (s : string) : list string :=
  match s with
  | EmptyString => [EmptyString]
  | String c s' =>
      if Ascii.eqb c sep then EmptyString :: split sep s'
      else match split sep s' with
           | piece :: rest => String c piece :: rest
           | [] => [String c EmptyString]
           end
  end.

(** [[q.strip() for q in search_input.split(";") if q.strip()]] *)
Definition parse_queries (search_input : string) : list string :=
  strip <$> filter (λ q, strip q ≠ "") (split ";" search_input).

Definition upper (c : ascii) : ascii :=
  let n := nat_of_ascii c in
  if Nat.leb 97 n && Nat.leb n 122 then ascii_of_nat (n - 32) else c.

Definition lower (c : ascii) : ascii :=
  let n := nat_of_ascii c in
  if Nat.leb 65 n && Nat.leb n 90 then ascii_of_nat (n + 32) else c.

Fixpoint map_chars (f : ascii → ascii) (s : string) : string :=
  match s with
  | EmptyString => EmptyString
  | String c s' => String (f c) (map_chars f s')
  end.

(** [s.capitalize()], on ASCII letters. *)
Definition capitalize (s : string) : string :=
  match s with
  | EmptyString => EmptyString
  | String c s' => String (upper c) (map_chars lower s')
  end.

(** [a <= b] on strings: lexicographic on the character codes. *)
Fixpoint str_le (a b : string) : bool :=
  match a, b with
  | EmptyString, _ => true
  | String _ _, EmptyString => false
  | String x a', String y b' =>
      if Nat.ltb (nat_of_ascii x) (nat_of_ascii y) then true
      else if Nat.ltb (nat_of_ascii y) (nat_of_ascii x) then false
      else str_le a' b'
  end.

(** The list the page shows: the results whose type is ticked, sorted by
    title or by score. *)
Definition filtered_results (results : list Result)
    (filter_options : list string) (sort_option : string) : list Result :=
  let filtered :=
    filter (λ r, capitalize (res_type r) ∈ filter_options) results in
  if decide (sort_option = "Title")
  then sort_by (λ a b, str_le (res_title a) (res_title b)) filtered
  else sort_by_score filtered.

End App.

Module AppFacts.
Import Store Env Str Query QueryFacts QueryMore StrMore App.

Lemma split_cons sep c s :
  split sep (String c s)
  = if Ascii.eqb c sep then "" :: split sep s
    else match split sep s with
         | piece :: rest => String c piece :: rest
         | [] => [String c ""]
         end.
Proof. reflexivity. Qed.

Lemma split_not_nil sep s : split sep s ≠ [].
Proof.
  destruct s as [|c s]; [done|]. rewrite split_cons.
  destruct (Ascii.eqb c sep); [done|]. by destruct (split sep s).
Qed.

Lemma concat_cons2 sep x y l :
  String.concat sep (x :: y :: l) = x +:+ sep +:+ String.concat sep (y :: l).
Proof. reflexivity. Qed.

Lemma split_no_sep sep s :
  Forall (λ piece, contains sep piece = false) (split sep s).
Proof.
  induction s as [|c s IH]; [by repeat constructor|]. rewrite split_cons.
  destruct (Ascii.eqb_spec c sep) as [->|Hc]; [by constructor|].
  destruct (split sep s) as [|piece rest] eqn:Hs;
    [by apply split_not_nil in Hs|].
  apply Forall_cons in IH as [Hp Hrest].
  constructor; [|done]. simpl. rewrite Hp, orb_false_r.
  by apply Ascii.eqb_neq.
Qed.

(** X22. Splitting at a separator loses nothing: joining the pieces with
    the separator gives the string back; there is always a piece, and no
    piece holds the separator. *)
Theorem split_join (sep : ascii) (s : string) :
  String.concat (String sep "") (split sep s) = s ∧
  split sep s ≠ [] ∧
  Forall (λ piece, contains sep piece = false) (split sep s).
Proof.
  split; [|split; [apply split_not_nil|apply split_no_sep]].
  induction s as [|c s IH]; [done|]. rewrite split_cons.
  pose proof (split_not_nil sep s) as Hne.
  destruct (Ascii.eqb_spec c sep) as [->|Hc].
  - destruct (split sep s) as [|piece rest]; [done|].
    by rewrite concat_cons2, IH.
  - destruct (split sep s) as [|piece rest]; [done|].
    destruct rest as [|piece' rest].
    + simpl in *. by rewrite IH.
    + rewrite concat_cons2 in *. by rewrite append_cons, IH.
Qed.

(** X23. Every query handed to the engine is not empty, is already
    stripped and holds no semicolon. *)
Theorem parsed_queries_clean (search_input : string) :
  Forall (λ q, q ≠ "" ∧ strip q = q ∧ contains ";" q = false)
         (parse_queries search_input).
Proof.
  unfold parse_queries. apply Forall_fmap, Forall_forall.
  intros q [Hq Hin]%list_elem_of_filter. simpl.
  split; [done|]. split; [apply strip_idem|].
  pose proof (split_no_sep ";" search_input) as Hno.
  rewrite Forall_forall in Hno. specialize (Hno q Hin).
  destruct (contains ";" (strip q)) eqn:Hc; [|done].
  apply strip_contains in Hc. congruence.
Qed.

Lemma str_le_total a : ∀ b, str_le a b = true ∨ str_le b a = true.
Proof.
  induction a as [|x a IH]; intros [|y b]; simpl; auto.
  destruct (Nat.ltb_spec (nat_of_ascii x) (nat_of_ascii y));
    destruct (Nat.ltb_spec (nat_of_ascii y) (nat_of_ascii x));
    auto; lia.
Qed.

Lemma str_le_trans a : ∀ b c,
  str_le a b = true → str_le b c = true → str_le a c = true.
Proof.
  induction a as [|x a IH]; intros [|y b] [|z c]; simpl; try done.
  destruct (Nat.ltb_spec (nat_of_ascii x) (nat_of_ascii y));
    destruct (Nat.ltb_spec (nat_of_ascii y) (nat_of_ascii x));
    destruct (Nat.ltb_spec (nat_of_ascii y) (nat_of_ascii z));
    destruct (Nat.ltb_spec (nat_of_ascii z) (nat_of_ascii y));
    destruct (Nat.ltb_spec (nat_of_ascii x) (nat_of_ascii z));
    destruct (Nat.ltb_spec (nat_of_ascii z) (nat_of_ascii x));
    try done; try lia.
  apply IH.
Qed.

Lemma StronglySorted_filter {A} (R : A → A → Prop) (P : A → Prop)
    `{!∀ x, Decision (P x)} l :
  StronglySorted R l → StronglySorted R (filter P l).
Proof.
  induction 1 as [|x l Hl IH Hx]; [constructor|].
  rewrite filter_cons. case_decide; [|done].
  constructor; [done|]. apply Forall_forall.
  intros y [_ Hy]%list_elem_of_filter. rewrite Forall_forall in Hx.
  by apply Hx.
Qed.

Definition by_title (a b : Result) : Prop :=
  str_le (res_title a) (res_title b) = true.

(** X24. The page shows exactly the results whose capitalised type is
    ticked, sorted by title when that is chosen and by descending score
    otherwise; when the results come sorted by score, as the engine returns
    them, sorting by score keeps their order. *)
Theorem displayed_results (results : list Result)
    (filter_options : list string) (sort_option : string) :
  let ticked r := capitalize (res_type r) ∈ filter_options in
  let shown := filtered_results results filter_options sort_option in
  shown ≡ₚ filter ticked results ∧
  (∀ r, r ∈ shown ↔ r ∈ results ∧ ticked r) ∧
  (sort_option = "Title" → StronglySorted by_title shown) ∧
  (sort_option ≠ "Title" → StronglySorted score_ge shown) ∧
  (sort_option ≠ "Title" → StronglySorted score_ge results →
   shown = filter ticked results).
Proof.
  simpl. unfold filtered_results.
  set (ticked := λ r, capitalize (res_type r) ∈ filter_options).
  assert ((if decide (sort_option = "Title")
           then sort_by (λ a b, str_le (res_title a) (res_title b))
                        (filter ticked results)
           else sort_by_score (filter ticked results))
          ≡ₚ filter ticked results) as Hperm.
  { case_decide; [apply sort_by_perm|apply sort_by_score_perm]. }
  split; [done|]. split; [|split; [|split]].
  - intros r. pose proof (elem_of_Permutation_proper r _ _ Hperm) as ->.
    rewrite list_elem_of_filter. naive_solver.
  - intros ->. rewrite decide_True by done.
    apply sort_by_sorted.
    + intros a b. apply str_le_total.
    + intros a b d. apply str_le_trans.
  - intros Hso. rewrite decide_False by done. apply sort_by_score_sorted.
  - intros Hso Hsorted. rewrite decide_False by done.
    apply sort_by_sorted_id. apply StronglySorted_filter.
    eapply StronglySorted_impl; [|exact Hsorted].
    intros a b Hab. by apply Qle_bool_iff.
Qed.

(** X25. With both types ticked and sorting by relevance, the page shows
    the list the engine returned, unchanged, when every returned type is
    recent or classic. *)
Theorem default_view_shows_all (w : World) (c : list Doc)
    (queries : list string)
    (Htypes : ∀ r, r ∈ perform_search w c queries →
                   res_type r = "recent" ∨ res_type r = "classic") :
  filtered_results (perform_search w c queries) ["Recent"; "Classic"]
                   "Relevance Score"
  = perform_search w c queries.
Proof.
  unfold filtered_results. rewrite decide_False by done.
  rewrite filter_all.
  - apply sort_by_sorted_id.
    pose proof (sort_by_score_leb_sorted (merged w c queries)) as Hsorted.
    unfold perform_search. rewrite <- (take_drop 25) in Hsorted.
    by apply StronglySorted_app_1_l in Hsorted.
  - apply Forall_forall. intros r Hr.
    destruct (Htypes r Hr) as [-> | ->]; vm_compute; set_solver.
Qed.

End AppFacts.


(** ** More scenarios *)

Module MoreScenarios.
Import Store Env Str Discovery Ingest Query Retention App.
Import StoreFacts IngestFacts RetentionFacts QueryFacts.
Import RetentionMore IngestMore QueryMore AppFacts Scenarios.

Lemma small_corpus_unique : NoDup (ids (collection small_corpus)).
Proof.
  apply (bool_decide_unpack (NoDup (ids (collection small_corpus)))).
  by vm_compute.
Defined.

Lemma cleanup_idempotent_witness :
  NoDup (ids (collection small_corpus)) ∧
  cleanup_old_items (cleanup_old_items small_corpus 2) 2
  = cleanup_old_items small_corpus 2.
Proof.
  split; [exact small_corpus_unique|].
  exact (cleanup_idempotent small_corpus 2 small_corpus_unique).
Defined.

Lemma batches_cover_witness :
  0 < 2 ∧ batches 2 ["a"; "b"; "c"] = [["a"; "b"]; ["c"]] ∧
  concat (batches 2 ["a"; "b"; "c"]) = ["a"; "b"; "c"].
Proof.
  assert (0 < 2) as Hsize by lia.
  split; [exact Hsize|]. split; [by vm_compute|].
  exact (proj1 (batches_cover 2 ["a"; "b"; "c"] Hsize)).
Defined.

Lemma fresh_state_covered i :
  i ∈ ids (collection (stores fresh_state)) → i ∈ processed_ids fresh_state.
Proof. by intros ?%elem_of_nil. Defined.

Lemma recent_only_appends_witness :
  (∀ i, i ∈ ids (collection (stores fresh_state)) →
        i ∈ processed_ids fresh_state) ∧
  ∃ ops, collection (stores (ingest_recent_papers many_papers fresh_state))
         = collection (stores fresh_state) ++ (inserted_doc <$> ops) ∧
         length ops = ingested (ingest_recent_papers many_papers fresh_state) ∧
         Forall (λ op, set_type op = "recent") ops ∧
         NoDup (filter_id <$> ops).
Proof.
  split; [exact fresh_state_covered|].
  exact (recent_only_appends many_papers fresh_state fresh_state_covered).
Defined.

Lemma ingested_docs_carry_mode_witness :
  NoDup (ids (collection (stores fresh_state))) ∧
  ∀ i, i ∈ processed_ids (ingest_recent_papers many_papers fresh_state) →
       i ∉ processed_ids fresh_state →
       ∃ d, docs_with i
              (collection (stores (ingest_recent_papers many_papers fresh_state)))
            = [d] ∧ type d = Some "recent".
Proof.
  assert (NoDup (ids (collection (stores fresh_state)))) as Hnd
    by constructor.
  split; [exact Hnd|].
  exact (proj2 (ingested_docs_carry_mode many_papers fresh_state 0 Hnd)).
Defined.

Lemma run_keeps_stores_sound_witness :
  NoDup (ids (collection empty_stores)) ∧ consistent empty_stores ∧
  consistent (stores (run first_night empty_stores)).
Proof.
  assert (NoDup (ids (collection empty_stores))) as Hnd by constructor.
  assert (consistent empty_stores) as Hcons.
  { intros i. simpl. rewrite lookup_empty. split.
    - by intros [? ?].
    - by intros ?%elem_of_nil. }
  split; [exact Hnd|]. split; [exact Hcons|].
  exact (proj1 (proj2 (run_keeps_stores_sound first_night empty_stores
                         Hnd Hcons))).
Defined.

(** As [three_queries], with a query the embedding model fails on. *)
Definition flaky_queries : World := {|
  github_found_ids _ := None;
  scholar_api _ _ := Json None;
  list_of_set := elements;
  arxiv_lookup _ := None;
  arxiv_week _ := [];
  encode text := if decide (text = "boom") then None else encode three_queries text;
  now _ := 0%Z;
  index_query := index_query three_queries
|}.

Lemma failed_query_skipped_witness :
  query_matches flaky_queries "boom" = None ∧
  perform_search flaky_queries two_docs ["transformers"; "boom"; "attention"]
  = perform_search flaky_queries two_docs ["transformers"; "attention"].
Proof.
  assert (query_matches flaky_queries "boom" = None) as Hq by (by vm_compute).
  split; [exact Hq|].
  exact (proj1 (failed_query_skipped flaky_queries two_docs ["transformers"]
                  ["attention"] "boom" (or_introl Hq))).
Defined.

Definition result_X : Result := {|
  id := "X"; score := 9 # 10; res_title := "No Title";
  res_summary := "No summary available."; res_authors := "No authors listed";
  res_pdf_url := "#"; res_type := "classic"
|}.

Definition result_Y : Result := {|
  id := "Y"; score := 3 # 10; res_title := "No Title";
  res_summary := "No summary available."; res_authors := "No authors listed";
  res_pdf_url := "#"; res_type := "recent"
|}.

Lemma search_three_queries_results :
  perform_search three_queries two_docs ["cats"; "transformers"; " attention "]
  = [result_X; result_Y].
Proof. by vm_compute. Defined.

Lemma scores_from_index_witness :
  result_X ∈ perform_search three_queries two_docs
               ["cats"; "transformers"; " attention "] ∧
  ∃ q matches, q ∈ ["cats"; "transformers"; " attention "] ∧
               query_matches three_queries q = Some matches ∧
               (id result_X, score result_X) ∈ matches.
Proof.
  assert (result_X ∈ perform_search three_queries two_docs
                       ["cats"; "transformers"; " attention "]) as Hr
    by (rewrite search_three_queries_results; by left).
  split; [exact Hr|].
  exact (scores_from_index three_queries two_docs _ result_X Hr).
Defined.

Lemma default_view_shows_all_witness :
  (∀ r, r ∈ perform_search three_queries two_docs
              ["cats"; "transformers"; " attention "] →
        res_type r = "recent" ∨ res_type r = "classic") ∧
  filtered_results
    (perform_search three_queries two_docs
       ["cats"; "transformers"; " attention "])
    ["Recent"; "Classic"] "Relevance Score"
  = [result_X; result_Y].
Proof.
  assert (∀ r, r ∈ perform_search three_queries two_docs
                     ["cats"; "transformers"; " attention "] →
               res_type r = "recent" ∨ res_type r = "classic") as Htypes.
  { intros r. rewrite search_three_queries_results.
    intros [-> | [-> | []%elem_of_nil]%elem_of_cons]%elem_of_cons; auto. }
  split; [exact Htypes|].
  rewrite (default_view_shows_all three_queries two_docs _ Htypes).
  exact search_three_queries_results.
Defined.

Example view_by_title_classic_only :
  id <$> filtered_results [result_Y; result_X] ["Classic"] "Title" = ["X"].
Proof. by vm_compute. Qed.

End MoreScenarios.
